(** * Yen's k-shortest loopless paths (gonum, graph/path/yen_ksp.go)

    A shallow embedding of [YenKShortestPaths], of the masking view
    [yenKSPAdjuster] and of [isSamePath], followed by the properties the
    specification states about them.

    Conventions of the embedding.
    - A [graph.Node] is represented by its identifier ([ID()], an int64),
      modelled as a [Z]; every comparison in the source goes through [ID()].
    - A [float64] is modelled by its value: a finite one as the integer
      number of units of 2^-1074 it holds (every finite binary64 value is
      such a multiple), besides [+Inf], [-Inf] and NaN.  Addition rounds
      to 53 significant bits, to nearest and ties to even, and overflows
      to an infinity, as binary64 does.  The sign of a zero is not
      represented: no operation of the file tells [-0] from [+0].
    - A Go panic is the outcome [Panic]; the outer [for] loop, which has no
      syntactic bound when [k < 0], is driven by a fuel counter and reports
      [OutOfFuel] when the counter is exhausted before the loop exits.
    - [DijkstraFromTo], [slices.SortFunc] and [UniformCost] are not part of
      the file under study: they are parameters of the development. *)

From stdpp Require Import base decidable option list gmap sets sorting.
From Stdlib Require Import ZArith Lia.

Local Open Scope Z_scope.
#[local] Set Warnings "-clear-no-such-hyp".

(** ** Outcomes *)

Inductive result (A : Type) : Type :=
  | Ok (a : A)
  | Panic
  | OutOfFuel.
Arguments Ok {A} a.
Arguments Panic {A}.
Arguments OutOfFuel {A}.

#[global] Instance result_bind : MBind result := λ A B f r,
  match r with
  | Ok a => f a
  | Panic => Panic
  | OutOfFuel => OutOfFuel
  end.

(** ** Weights *)

(** [Fin z] stands for the value [z * 2^-1074]. *)
Inductive float64 : Type :=
  | Fin (z : Z)
  | PInf
  | NInf
  | NaN.

#[global] Instance float64_eq_dec : EqDecision float64.
Proof. solve_decision. Defined.

(** The exponent of the unit in the last place of the binade of [a],
    for [0 <= a]: values below 2^53 units, the subnormal numbers and the
    first binade of the normal ones, are spaced one unit apart. *)
Definition ulpExp (a : Z) : Z := Z.max 0 (Z.log2 a - 52).

(** Rounding of [0 <= a] to 53 significant bits, to nearest, ties to the
    even significand. *)
Definition roundNE (a : Z) : Z :=
  let s := ulpExp a in
  let q := a / 2 ^ s in
  let r := a mod 2 ^ s in
  let up := (2 ^ s <? 2 * r) || ((2 ^ s =? 2 * r) && Z.odd q) in
  (if up then q + 1 else q) * 2 ^ s.

(** The float64 nearest to [x] units; 2^2098 units are 2^1024, past the
    largest finite value. *)
Definition round (x : Z) : float64 :=
  let y := roundNE (Z.abs x) in
  if 2 ^ 2098 <=? y then (if 0 <? x then PInf else NInf)
  else Fin (Z.sgn x * y).

(** [float64(n)] for an integer [n]. *)
Definition ofInt (n : Z) : float64 := round (n * 2 ^ 1074).

(** [a + b] *)
Definition fadd (a b : float64) : float64 :=
  match a, b with
  | Fin x, Fin y => round (x + y)
  | NaN, _ | _, NaN => NaN
  | PInf, NInf | NInf, PInf => NaN
  | PInf, _ | _, PInf => PInf
  | NInf, _ | _, NInf => NInf
  end.

(** [a > b] *)
Definition fgt (a b : float64) : bool :=
  match a, b with
  | Fin x, Fin y => y <? x
  | PInf, Fin _ | PInf, NInf | Fin _, NInf => true
  | _, _ => false
  end.

(** [a <= b] *)
Definition fleb (a b : float64) : bool :=
  match a, b with
  | Fin x, Fin y => x <=? y
  | NInf, Fin _ | NInf, PInf | NInf, NInf | Fin _, PInf | PInf, PInf => true
  | _, _ => false
  end.

(** [a <= b], as a proposition. *)
Definition fle (a b : float64) : Prop := fleb a b = true.

(** [math.IsInf(a, 1)] *)
Definition IsInf (a : float64) : bool :=
  match a with
  | PInf => true
  | _ => false
  end.

Definition isNaN (a : float64) : bool :=
  match a with
  | NaN => true
  | _ => false
  end.

(** [cmp.Compare(x, y)], the comparison handed to [slices.SortFunc] at
    lines 107-109: a NaN is less than any other value and equal to a
    NaN. *)
Definition Compare (x y : float64) : Z :=
  if isNaN x then (if isNaN y then 0 else -1)
  else if isNaN y then 1
  else if fgt y x then -1
  else if fgt x y then 1
  else 0.

(** [type Weighting func(xid, yid int64) (w float64, ok bool)] *)
Definition Weighting : Type := Z → Z → float64 * bool.

(** ** The graph capability *)

Module graph.

(** The part of [graph.Graph] the algorithm consumes: the node set, the
    neighbours of a node in iteration order, whether the dynamic type
    implements [graph.Directed], and the [Weight] method when the dynamic
    type implements [Weighted]. *)
Record Graph : Type := {
  Nodes : list Z;
  From : Z → list Z;
  Directed : bool;
  Weighted : option Weighting;
}.

End graph.

(** ** The masking view *)

Record yenKSPAdjuster : Type := {
  Graph : graph.Graph;
  isDirected : bool;
  weight : Weighting;
  visitedNodes : gset Z;
  visitedEdges : gset (Z * Z);
}.

Definition canWalk (g : yenKSPAdjuster) (u v : Z) : bool :=
  if decide (v ∈ visitedNodes g) then false
  else negb (bool_decide ((u, v) ∈ visitedEdges g)).

(** The filtering loop of [From]: [nodes[i:]] is the list still to be
    examined.  A node that cannot be walked to is overwritten by the last
    element of the slice, and the slice shrinks by one. *)
Fixpoint fromLoop (g : yenKSPAdjuster) (id : Z) (fuel : nat) (nodes : list Z)
  : list Z :=
  match fuel with
  | O => []
  | S fuel' =>
    match nodes with
    | [] => []
    | x :: rest =>
      if canWalk g id x then x :: fromLoop g id fuel' rest
      else
        match last rest with
        | None => []
        | Some y => fromLoop g id fuel' (y :: removelast rest)
        end
    end
  end.

Definition From (g : yenKSPAdjuster) (id : Z) : list Z :=
  if decide (id ∈ visitedNodes g) then []
  else
    let nodes := graph.From (Graph g) id in
    fromLoop g id (length nodes) nodes.

Definition removeNode (g : yenKSPAdjuster) (u : Z) : yenKSPAdjuster :=
  {| Graph := Graph g; isDirected := isDirected g; weight := weight g;
     visitedNodes := {[u]} ∪ visitedNodes g;
     visitedEdges := visitedEdges g |}.

Definition removeEdge (g : yenKSPAdjuster) (u v : Z) : yenKSPAdjuster :=
  let edges := {[(u, v)]} ∪ visitedEdges g in
  {| Graph := Graph g; isDirected := isDirected g; weight := weight g;
     visitedNodes := visitedNodes g;
     visitedEdges := if isDirected g then edges else {[(v, u)]} ∪ edges |}.

Definition reset (g : yenKSPAdjuster) : yenKSPAdjuster :=
  {| Graph := Graph g; isDirected := isDirected g; weight := weight g;
     visitedNodes := ∅;
     visitedEdges := ∅ |}.

Definition Weight (g : yenKSPAdjuster) (xid yid : Z) : float64 * bool :=
  weight g xid yid.

(** ** Paths and candidates *)

(** The comparison loop shared by [isSamePath] (lines 126-130) and by the
    root match (lines 62-67): every identifier of [a] equals the one of [b]
    at the same position.  Both callers make sure that [b] is at least as
    long as [a], so the last case is not reached from them. *)
Fixpoint samePrefix (a b : list Z) : bool :=
  match a, b with
  | [], _ => true
  | x :: a', y :: b' => if decide (x = y) then samePrefix a' b' else false
  | _ :: _, [] => false
  end.

Definition isSamePath (a b : list Z) : bool :=
  if decide (length a = length b) then samePrefix a b else false.

Module yenShortest.
(** [yenShortest] holds a path and its weight for sorting. *)
Record t : Type := mk { path : list Z; weight : float64 }.
End yenShortest.

(** Slice indexing [l[i]], which panics out of range. *)
Definition index {A} (l : list A) (i : nat) : result A :=
  match l !! i with
  | Some a => Ok a
  | None => Panic
  end.

(** The same with an int64 index. *)
Definition indexZ {A} (l : list A) (i : Z) : result A :=
  if i <? 0 then Panic else index l (Z.to_nat i).

(** [rootWeight]: the loop of lines 81-85, started from the accumulator
    [acc]; it adds the weights of consecutive pairs, ignoring the [ok]
    flag of the weight function. *)
Fixpoint sumWeights (w : Weighting) (acc : float64) (nodes : list Z) : float64 :=
  match nodes with
  | a :: (b :: _) as rest => sumWeights w (fadd acc (w a b).1) rest
  | _ => acc
  end.

(** The weight of a path: the sum of the weights of its consecutive edges. *)
Definition pathWeight (w : Weighting) (p : list Z) : float64 :=
  sumWeights w (Fin 0) p.

(** ** The orchestrator *)

Record state : Type := {
  paths : list (list Z);
  pot : list yenShortest.t;
  i : Z;
}.

Section Yen.

(** The external shortest-path search, [slices.SortFunc] applied with the
    comparison of weights, and the default weighting of an unweighted
    graph. *)
Variable DijkstraFromTo : Z → Z → yenKSPAdjuster → result (list Z * float64).
Variable SortFunc : list yenShortest.t → list yenShortest.t.
Variable UniformCost : graph.Graph → Weighting.

(** Lines 57-71: for every accepted path that starts with [root], remove
    the edge it takes out of the spur node. *)
Fixpoint removeRootEdges (yk : yenKSPAdjuster) (paths : list (list Z))
    (root : list Z) (n : nat) : result yenKSPAdjuster :=
  match paths with
  | [] => Ok yk
  | path :: rest =>
    if (length path <=? n)%nat then removeRootEdges yk rest root n
    else if samePrefix root path then
      u ← index path n;
      v ← index path (S n);
      removeRootEdges (removeEdge yk u v) rest root n
    else removeRootEdges yk rest root n
  end.

(** Lines 72-74. *)
Definition removeRootNodes (yk : yenKSPAdjuster) (root : list Z)
  : yenKSPAdjuster :=
  foldl removeNode yk (take (length root - 1) root).

(** Lines 90-100: add the potential k-shortest path if it is new. *)
Definition addPot (pot : list yenShortest.t) (spath : list Z)
    (w : float64) : list yenShortest.t :=
  if existsb (λ c, isSamePath (yenShortest.path c) spath) pot then pot
  else pot ++ [yenShortest.mk spath w].

(** Lines 52-100: the body of the loop over the spur index [n]; [prev] is
    [paths[i-1]]. *)
Definition spurBody (yk : yenKSPAdjuster) (t : Z) (cost : float64)
    (paths : list (list Z)) (prev : list Z) (pot : list yenShortest.t)
    (n : nat) : result (list yenShortest.t) :=
  let yk := reset yk in
  spur ← index prev n;
  let root := take (S n) prev in
  yk ← removeRootEdges yk paths root n;
  let yk := removeRootNodes yk root in
  '(spath, w) ← DijkstraFromTo spur t yk;
  if fgt w cost || IsInf w then Ok pot
  else if (1 <? length root)%nat then
    let rootWeight := sumWeights (weight yk) (Fin 0) root in
    Ok (addPot pot (take (length root - 1) root ++ spath)
               (fadd w rootWeight))
  else Ok (addPot pot spath w).

(** Line 51: [for n := 0; n < len(paths[i-1])-1; n++], as [count]
    iterations starting at [n]. *)
Fixpoint spurLoop (yk : yenKSPAdjuster) (t : Z) (cost : float64)
    (paths : list (list Z)) (prev : list Z) (count n : nat)
    (pot : list yenShortest.t) : result (list yenShortest.t) :=
  match count with
  | O => Ok pot
  | S count' =>
    pot' ← spurBody yk t cost paths prev pot n;
    spurLoop yk t cost paths prev count' (S n) pot'
  end.

(** Lines 49-115: one pass through the body of the outer loop.  The
    result is the next state, or the returned list when the pass ends
    in [break]. *)
Definition iteration (yk : yenKSPAdjuster) (t : Z) (cost : float64)
    (st : state) : result (state + list (list Z)) :=
  prev ← indexZ (paths st) (i st - 1);
  pot ← spurLoop yk t cost (paths st) prev (length prev - 1) 0 (pot st);
  if (length pot =? 0)%nat then Ok (inr (paths st))
  else
    let pot := SortFunc pot in
    best ← index pot 0;
    if (length (yenShortest.path best) <=? 1)%nat
       || fgt (yenShortest.weight best) cost
    then Ok (inr (paths st))
    else Ok (inl {| paths := paths st ++ [yenShortest.path best];
                    pot := drop 1 pot;
                    i := i st + 1 |}).

(** Line 48: [for i := int64(1); k < 0 || i < int64(k); i++]. *)
Fixpoint loop (fuel : nat) (yk : yenKSPAdjuster) (k : Z) (t : Z)
    (cost : float64) (st : state) : result (list (list Z)) :=
  if (k <? 0) || (i st <? k) then
    match fuel with
    | O => OutOfFuel
    | S fuel' =>
      r ← iteration yk t cost st;
      match r with
      | inl st' => loop fuel' yk k t cost st'
      | inr ps => Ok ps
      end
    end
  else Ok (paths st).

(** Lines 24-34: the view handed to the search. *)
Definition newAdjuster (g : graph.Graph) : yenKSPAdjuster :=
  {| Graph := g;
     isDirected := graph.Directed g;
     weight := match graph.Weighted g with
               | Some w => w
               | None => UniformCost g
               end;
     visitedNodes := ∅;
     visitedEdges := ∅ |}.

Definition YenKShortestPaths (fuel : nat) (g : graph.Graph) (k : Z)
    (cost : float64) (s t : Z) : result (list (list Z)) :=
  let yk := newAdjuster g in
  '(shortest, w) ← DijkstraFromTo s t yk;
  let cost := fadd cost w in
  match shortest with
  | [] => Ok []
  | [_] => Ok [shortest]
  | _ => loop fuel yk k t cost {| paths := [shortest]; pot := []; i := 1 |}
  end.

End Yen.

(** ** Vocabulary of the statements *)

(** Consecutive nodes of [p] are joined by an edge the view [yk] shows. *)
Fixpoint chain (yk : yenKSPAdjuster) (p : list Z) : Prop :=
  match p with
  | a :: (b :: _) as rest => b ∈ From yk a ∧ chain yk rest
  | _ => True
  end.

(** [p] is a walk from [u] to [t] in the view [yk]. *)
Definition walk (yk : yenKSPAdjuster) (u t : Z) (p : list Z) : Prop :=
  head p = Some u ∧ last p = Some t ∧ chain yk p.

(** The neighbours of every node are nodes of the graph, and only nodes of
    the graph have neighbours. *)
Definition wellFormed (g : graph.Graph) : Prop :=
  ∀ u v, v ∈ graph.From g u → u ∈ graph.Nodes g ∧ v ∈ graph.Nodes g.

(** Every edge of the wrapped graph has a weight, finite and nonnegative. *)
Definition nonnegative (yk : yenKSPAdjuster) : Prop :=
  ∀ u v, v ∈ graph.From (Graph yk) u →
    ∃ z, weight yk u v = (Fin z, true) ∧ 0 ≤ z.

(** Some edge of the wrapped graph has a negative weight. *)
Definition hasNegativeEdge (yk : yenKSPAdjuster) : Prop :=
  ∃ u v z, v ∈ graph.From (Graph yk) u ∧ weight yk u v = (Fin z, true) ∧ z < 0.

(** The contract of the shortest-path search, in two parts.  Whenever it
    returns, it returns either the empty path with weight [+Inf], or a
    loopless walk of the view from [u] to [t] together with its weight. *)
Definition oracleSound
    (D : Z → Z → yenKSPAdjuster → result (list Z * float64)) : Prop :=
  ∀ u t yk p w, D u t yk = Ok (p, w) →
    (p = [] ∧ w = PInf)
    ∨ (walk yk u t p ∧ NoDup p ∧ w = pathWeight (weight yk) p).

(** On a well-formed graph with nonnegative weights and from a node of the
    graph, no loopless walk of the view is cheaper than what it returns. *)
Definition oracleOptimal
    (D : Z → Z → yenKSPAdjuster → result (list Z * float64)) : Prop :=
  ∀ u t yk p w,
    wellFormed (Graph yk) → nonnegative yk → u ∈ graph.Nodes (Graph yk) →
    D u t yk = Ok (p, w) →
    ∀ q, walk yk u t q → NoDup q → fle w (pathWeight (weight yk) q).

(** The order [slices.SortFunc] is called with: [cmp.Compare] of the
    weights. *)
Definition byWeight (a b : yenShortest.t) : Prop :=
  Compare (yenShortest.weight a) (yenShortest.weight b) ≤ 0.

#[global] Instance byWeight_dec : RelDecision byWeight.
Proof. intros a b. unfold byWeight. apply _. Defined.

(** The contract of [slices.SortFunc], in two parts: it rearranges the
    slice, *)
Definition sortPermutes (S : list yenShortest.t → list yenShortest.t) : Prop :=
  ∀ l, S l ≡ₚ l.

(** and the result is in ascending order. *)
Definition sortSorts (S : list yenShortest.t → list yenShortest.t) : Prop :=
  ∀ l, StronglySorted byWeight (S l).

(** The length of the longest common prefix of two paths. *)
Fixpoint lcp (a b : list Z) : nat :=
  match a, b with
  | x :: a', y :: b' => if decide (x = y) then S (lcp a' b') else O
  | _, _ => O
  end.

(** The weights of consecutive elements never decrease. *)
Fixpoint nondecreasing (ws : list float64) : Prop :=
  match ws with
  | a :: (b :: _) as rest => fle a b ∧ nondecreasing rest
  | _ => True
  end.

(** The operations that change the state of the view. *)
Inductive maskOp : Type :=
  | opReset
  | opRemoveNode (u : Z)
  | opRemoveEdge (u v : Z).

Definition applyOp (yk : yenKSPAdjuster) (op : maskOp) : yenKSPAdjuster :=
  match op with
  | opReset => reset yk
  | opRemoveNode u => removeNode yk u
  | opRemoveEdge u v => removeEdge yk u v
  end.

(** The edge [(a, b)] is the one an accepted path takes out of position [n],
    in the direction of the path or, in an undirected graph, against it. *)
Definition rootEdge (directed : bool) (paths : list (list Z)) (root : list Z)
    (n : nat) (a b : Z) : Prop :=
  ∃ path, path ∈ paths ∧ (n < length path)%nat
    ∧ samePrefix root path = true
    ∧ ((path !! n = Some a ∧ path !! S n = Some b)
       ∨ (directed = false ∧ path !! n = Some b ∧ path !! S n = Some a)).

(** The view queried for the spur index [n] of [prev]: nothing but the
    nodes of the root before the spur and the root edges are masked. *)
Definition spurView (yk ykm : yenKSPAdjuster) (paths : list (list Z))
    (prev : list Z) (n : nat) : Prop :=
  Graph ykm = Graph yk ∧ weight ykm = weight yk
  ∧ (∀ x, x ∈ visitedNodes ykm ↔ x ∈ take n prev)
  ∧ (∀ a b, (a, b) ∈ visitedEdges ykm ↔
       rootEdge (isDirected yk) paths (take (S n) prev) n a b).

(** A loopless walk of the unmasked graph from [s] to [t]. *)
Definition looplessWalk (yk : yenKSPAdjuster) (s t : Z) (p : list Z) : Prop :=
  walk (reset yk) s t p ∧ NoDup p.

(** What holds of every accepted path. *)
Definition acceptedOk (yk : yenKSPAdjuster) (s t : Z) (p : list Z) : Prop :=
  looplessWalk yk s t p ∧ (2 ≤ length p)%nat.

(** What holds of every candidate of the pool. *)
Definition candidateOk (yk : yenKSPAdjuster) (s t : Z) (c : yenShortest.t)
  : Prop :=
  looplessWalk yk s t (yenShortest.path c)
  ∧ (2 ≤ length (yenShortest.path c))%nat.

(** The weight stored with a candidate is the weight of its path. *)
Definition weighed (yk : yenKSPAdjuster) (c : yenShortest.t) : Prop :=
  yenShortest.weight c = pathWeight (weight yk) (yenShortest.path c).

(** A nonnegative float64 or [+Inf]: what a sum of nonnegative weights
    can be. *)
Definition nonnegFloat (x : float64) : Prop :=
  match x with
  | Fin a => 0 ≤ a ∧ round a = Fin a
  | PInf => True
  | _ => False
  end.

(** The additions of the algorithm are exact on the graph: every weight
    is a multiple [m * 2^e] of one power of two with [0 <= m <= B], and
    [B] times the number of nodes stays below 2^53; so it is with integer
    weights on a graph that is too small for their sums to reach 2^53. *)
Definition exactWeights (yk : yenKSPAdjuster) : Prop :=
  ∃ e B : Z,
    0 ≤ e ≤ 2045 ∧ 0 ≤ B
    ∧ B * Z.of_nat (length (graph.Nodes (Graph yk))) < 2 ^ 53
    ∧ ∀ u v, v ∈ graph.From (Graph yk) u →
        ∃ m, weight yk u v = (Fin (m * 2 ^ e), true) ∧ 0 ≤ m ≤ B.

(** The units held by a finite value. *)
Definition zval (x : float64) : Z :=
  match x with
  | Fin z => z
  | _ => 0
  end.

(** The sum of the weights of the edges of [p] as a number, without
    rounding, in units of 2^-1074. *)
Fixpoint zsum (w : Weighting) (p : list Z) : Z :=
  match p with
  | a :: (b :: _) as rest => zval (w a b).1 + zsum w rest
  | _ => 0
  end.

(** The structural invariant of the outer loop: [i] counts the accepted
    paths, there is at least one, all of them and all candidates are
    loopless walks from [s] to [t], and no path occurs twice among the
    accepted paths and the pool taken together. *)
Definition structInv (yk : yenKSPAdjuster) (s t : Z) (st : state) : Prop :=
  i st = Z.of_nat (length (paths st))
  ∧ paths st ≠ []
  ∧ Forall (acceptedOk yk s t) (paths st)
  ∧ Forall (candidateOk yk s t) (pot st)
  ∧ NoDup (paths st ++ (yenShortest.path <$> pot st)).

(** The states the outer loop passes through when started from a state. *)
Inductive reaches
    (D : Z → Z → yenKSPAdjuster → result (list Z * float64))
    (S : list yenShortest.t → list yenShortest.t)
    (yk : yenKSPAdjuster) (k t : Z) (cost : float64) : state → state → Prop :=
  | reaches_here st : reaches D S yk k t cost st st
  | reaches_next st st' st'' :
      reaches D S yk k t cost st st' →
      (k <? 0) || (i st' <? k) = true →
      iteration D S yk t cost st' = Ok (inl st'') →
      reaches D S yk k t cost st st''.

(** The loopless walk [q], not accepted so far, is accounted for while the
    spur index [n] of [prev] is about to be handled: it costs more than the
    limit, or the pool holds a candidate that is no more expensive and
    shares with [q] a prefix at least as long as any accepted path does, or
    no accepted path shares a longer prefix with [q] than [prev] does and
    the spur index at which [q] leaves [prev] is still to come. *)
Definition covered (yk : yenKSPAdjuster) (cost : float64)
    (paths : list (list Z)) (pot : list yenShortest.t) (prev : list Z)
    (n : nat) (q : list Z) : Prop :=
  fgt (pathWeight (weight yk) q) cost = true
  ∨ (∃ c, c ∈ pot
       ∧ fle (yenShortest.weight c) (pathWeight (weight yk) q)
       ∧ ∀ p, p ∈ paths → (lcp p q ≤ lcp (yenShortest.path c) q)%nat)
  ∨ ((∀ p, p ∈ paths → (lcp p q ≤ lcp prev q)%nat) ∧ (n < lcp prev q)%nat).

(** Every loopless walk not accepted so far is accounted for. *)
Definition coverage (yk : yenKSPAdjuster) (s t : Z) (cost : float64)
    (paths : list (list Z)) (pot : list yenShortest.t) (prev : list Z)
    (n : nat) : Prop :=
  ∀ q, looplessWalk yk s t q → q ∉ paths →
    covered yk cost paths pot prev n q.

(** No accepted path is more expensive than a loopless walk that is not
    accepted. *)
Definition minimal (yk : yenKSPAdjuster) (s t : Z) (paths : list (list Z))
  : Prop :=
  ∀ p q, p ∈ paths → looplessWalk yk s t q → q ∉ paths →
    fle (pathWeight (weight yk) p) (pathWeight (weight yk) q).

(** The invariant of the outer loop behind the order of the result. *)
Definition optInv (yk : yenKSPAdjuster) (s t : Z) (cost : float64)
    (st : state) : Prop :=
  nondecreasing (pathWeight (weight yk) <$> paths st)
  ∧ minimal yk s t (paths st)
  ∧ ∃ prev, last (paths st) = Some prev
      ∧ coverage yk s t cost (paths st) (pot st) prev 0.

(** The search answers on every view of a well-formed graph with
    nonnegative weights. *)
Definition oracleTotal
    (D : Z → Z → yenKSPAdjuster → result (list Z * float64)) : Prop :=
  ∀ u t yk, wellFormed (Graph yk) → nonnegative yk → ∃ r, D u t yk = Ok r.

(** ** Reference instances of the parameters

    Executable stand-ins for the three external functions, used to run the
    algorithm on concrete graphs. *)

Module Reference.

(** All loopless walks from [u] to [t] in the view [yk] that avoid
    [seen], found by depth-first enumeration. *)
Fixpoint simplePaths (yk : yenKSPAdjuster) (t : Z) (fuel : nat)
    (seen : list Z) (u : Z) : list (list Z) :=
  if decide (u = t) then [[u]]
  else
    match fuel with
    | O => []
    | S fuel' =>
      v ← From yk u;
      if decide (v ∈ u :: seen) then []
      else (u ::.) <$> simplePaths yk t fuel' (u :: seen) v
    end.

(** The cheapest of the paths [ps], or [best] when none is cheaper. *)
Fixpoint cheapest (w : Weighting) (best : list Z * float64)
    (ps : list (list Z)) : list Z * float64 :=
  match ps with
  | [] => best
  | p :: ps' =>
    if fgt best.2 (pathWeight w p) then cheapest w (p, pathWeight w p) ps'
    else cheapest w best ps'
  end.

(** The nodes reachable from [frontier] in the view within [fuel] steps. *)
Fixpoint reachable (yk : yenKSPAdjuster) (fuel : nat) (frontier : list Z)
  : list Z :=
  match fuel with
  | O => frontier
  | S fuel' =>
    reachable yk fuel' (list_union frontier (frontier ≫= From yk))
  end.

(** An edge whose weight the search cannot consume: absent or negative. *)
Definition badEdge (yk : yenKSPAdjuster) (a b : Z) : bool :=
  match Weight yk a b with
  | (Fin z, true) => z <? 0
  | _ => true
  end.

(** Modelled from the spec: [DijkstraFromTo] is not in the file under
    study.  The specification's contract for the oracle reads: it
    computes the minimum-weight loopless path between two nodes over the
    view and its total weight, an unreachable target yields an empty path
    and weight [+Inf], and all consumed edge weights must be nonnegative.
    This instance panics when an edge it can reach from [u] in the view
    has an unusable weight, and otherwise returns the cheapest loopless
    walk; a walk whose weight is [+Inf] does not improve on the answer
    for an unreachable target, the empty path at weight [+Inf]. *)
Definition DijkstraFromTo (u t : Z) (yk : yenKSPAdjuster)
  : result (list Z * float64) :=
  let n := length (graph.Nodes (Graph yk)) in
  if existsb (λ a, existsb (badEdge yk a) (From yk a)) (reachable yk n [u])
  then Panic
  else Ok (cheapest (weight yk) ([], PInf) (simplePaths yk t n [] u)).

Definition SortFunc (pot : list yenShortest.t) : list yenShortest.t :=
  merge_sort byWeight pot.

(** An instance of the default weighting: cost 1 along an edge, 0 from a
    node to itself, [+Inf] elsewhere. *)
Definition UniformCost (g : graph.Graph) : Weighting :=
  λ x y,
    if decide (x = y) then (Fin 0, true)
    else if decide (y ∈ graph.From g x) then (ofInt 1, true)
    else (PInf, false).

Definition Yen : nat → graph.Graph → Z → float64 → Z → Z
                 → result (list (list Z)) :=
  YenKShortestPaths DijkstraFromTo SortFunc UniformCost.

(** A graph given by its edge list, with integer weights. *)
Definition edgeWeight (edges : list (Z * Z * Z)) : Weighting :=
  λ x y,
    match list_find (λ e, e.1.1 = x ∧ e.1.2 = y) edges with
    | Some (_, e) => (ofInt e.2, true)
    | None => if decide (x = y) then (Fin 0, true) else (PInf, false)
    end.

Definition ofEdges (directed : bool) (nodes : list Z)
    (edges : list (Z * Z * Z)) : graph.Graph :=
  {| graph.Nodes := nodes;
     graph.From := λ u,
       (λ e : Z * Z * Z, e.1.2) <$> filter (λ e, e.1.1 = u) edges;
     graph.Directed := directed;
     graph.Weighted := Some (edgeWeight edges) |}.

(** The directed example graph of the specification: A..E are 0..4. *)
Definition example : graph.Graph :=
  ofEdges true [0; 1; 2; 3; 4]
    [(0, 1, 1); (0, 2, 2); (1, 3, 1); (2, 3, 1); (1, 2, 1); (3, 4, 1)].

(** A graph whose only negative edge cannot be reached from node 0. *)
Definition negativeElsewhere : graph.Graph :=
  ofEdges true [0; 1; 2] [(0, 1, 1); (2, 0, -1)].

(** A graph whose negative edge is the first one a search from node 0
    consumes. *)
Definition negativeAhead : graph.Graph :=
  ofEdges true [0; 1] [(0, 1, -1)].

(** A graph with weights next to 2^53, where sums are rounded. *)
Definition rounded : graph.Graph :=
  ofEdges true [0; 1; 2; 3]
    [(0, 1, 1); (0, 2, 2); (1, 2, 2 ^ 53 + 2); (1, 3, 2 ^ 53 + 2);
     (2, 1, 1); (2, 3, 3)].

(** A graph whose only path from 0 to 2 weighs 2^1024, past the largest
    float64. *)
Definition overflowing : graph.Graph :=
  ofEdges true [0; 1; 2] [(0, 1, 2 ^ 1023); (1, 2, 2 ^ 1023)].

(** A finite nonnegative value. *)
Definition finNonneg (x : float64) : bool :=
  match x with
  | Fin z => 0 <=? z
  | _ => false
  end.

End Reference.

(** * Properties *)

(** ** Rounding *)

Lemma ulpExp_nonneg a : 0 ≤ ulpExp a.
Proof. unfold ulpExp. lia. Qed.

Lemma roundNE_cases a :
  0 ≤ a →
  let s := ulpExp a in
  (a mod 2 ^ s = 0 ∧ roundNE a = a)
  ∨ (0 < a mod 2 ^ s
     ∧ (roundNE a = a / 2 ^ s * 2 ^ s ∨ roundNE a = (a / 2 ^ s + 1) * 2 ^ s)).
Proof.
  intros Ha s. pose proof (ulpExp_nonneg a) as Hs. fold s in Hs.
  assert (0 < 2 ^ s) as Hpow by (apply Z.pow_pos_nonneg; lia).
  pose proof (Z.mod_pos_bound a (2 ^ s) Hpow) as Hr.
  pose proof (Z.div_mod a (2 ^ s)) as Hdm.
  unfold roundNE. fold s.
  destruct (decide (a mod 2 ^ s = 0)) as [H0|H0].
  - left. split; [done|]. rewrite H0.
    replace (2 ^ s <? 2 * 0) with false by (symmetry; apply Z.ltb_ge; lia).
    replace (2 ^ s =? 2 * 0) with false by (symmetry; apply Z.eqb_neq; lia).
    simpl. lia.
  - right. split; [lia|]. destruct (_ || _); auto.
Qed.

Lemma log2_binade a s :
  0 < s → ulpExp a = s → 2 ^ (52 + s) ≤ a < 2 ^ (53 + s).
Proof.
  unfold ulpExp. intros Hs Hu.
  assert (Z.log2 a = 52 + s) as Hl by lia.
  assert (0 < a) as Ha.
  { destruct (decide (0 < a)); [done|]. rewrite Z.log2_nonpos in Hl by lia. lia. }
  pose proof (Z.log2_spec a Ha) as Hspec. rewrite Hl in Hspec.
  replace (Z.succ (52 + s)) with (53 + s) in Hspec by lia. done.
Qed.

Lemma ulpExp_0_small a : 0 ≤ a → ulpExp a = 0 → a < 2 ^ 53.
Proof.
  unfold ulpExp. intros Ha Hu.
  destruct (decide (a = 0)) as [->|]; [done|].
  apply Z.log2_lt_pow2; lia.
Qed.

Lemma ulpExp_mono a b : 0 ≤ a ≤ b → ulpExp a ≤ ulpExp b.
Proof.
  intros H. unfold ulpExp. pose proof (Z.log2_le_mono a b). lia.
Qed.

Lemma pow2_pos s : 0 ≤ s → 0 < 2 ^ s.
Proof. intros. apply Z.pow_pos_nonneg; lia. Qed.

Lemma roundNE_fix a :
  0 ≤ a → a mod 2 ^ ulpExp a = 0 → roundNE a = a.
Proof.
  intros Ha H0. destruct (roundNE_cases a Ha) as [[_ ?]|[? _]]; [done|lia].
Qed.

Lemma roundNE_le_multiple a k :
  0 ≤ a → a ≤ k * 2 ^ ulpExp a → roundNE a ≤ k * 2 ^ ulpExp a.
Proof.
  intros Ha Hk. pose proof (pow2_pos _ (ulpExp_nonneg a)) as Hpow.
  pose proof (Z.mod_pos_bound a _ Hpow) as Hr.
  pose proof (Z.div_mod a (2 ^ ulpExp a)) as Hdm.
  destruct (roundNE_cases a Ha) as [[_ ->]|[Hpos [->| ->]]]; [done| |].
  - nia.
  - assert (a / 2 ^ ulpExp a < k) by nia. nia.
Qed.

Lemma roundNE_ge_multiple a k :
  0 ≤ a → k * 2 ^ ulpExp a ≤ a → k * 2 ^ ulpExp a ≤ roundNE a.
Proof.
  intros Ha Hk. pose proof (pow2_pos _ (ulpExp_nonneg a)) as Hpow.
  pose proof (Z.mod_pos_bound a _ Hpow) as Hr.
  pose proof (Z.div_mod a (2 ^ ulpExp a)) as Hdm.
  destruct (roundNE_cases a Ha) as [[_ ->]|[Hpos [->| ->]]]; [done| |].
  - assert (k ≤ a / 2 ^ ulpExp a) by nia. nia.
  - assert (k ≤ a / 2 ^ ulpExp a) by nia. nia.
Qed.

Lemma roundNE_nonneg a : 0 ≤ a → 0 ≤ roundNE a.
Proof.
  intros Ha. pose proof (roundNE_ge_multiple a 0 Ha). lia.
Qed.

Lemma roundNE_mono a b : 0 ≤ a → a ≤ b → roundNE a ≤ roundNE b.
Proof.
  intros Ha Hab.
  pose proof (ulpExp_mono a b) as Hs.
  pose proof (ulpExp_nonneg a) as Hsa.
  destruct (decide (ulpExp a = ulpExp b)) as [Heq|Hne].
  - pose proof (pow2_pos _ Hsa) as Hpow.
    pose proof (Z.mod_pos_bound a _ Hpow) as Hra.
    pose proof (Z.mod_pos_bound b _ Hpow) as Hrb.
    pose proof (Z.div_mod a (2 ^ ulpExp a)) as Hda.
    pose proof (Z.div_mod b (2 ^ ulpExp a)) as Hdb.
    destruct (decide (a / 2 ^ ulpExp a = b / 2 ^ ulpExp a)) as [Hq|Hq].
    + unfold roundNE. rewrite <- Heq, <- Hq.
      assert (a mod 2 ^ ulpExp a ≤ b mod 2 ^ ulpExp a) as Hr by lia.
      set (s := 2 ^ ulpExp a) in *. set (q := a / s) in *.
      set (ra := a mod s) in *. set (rb := b mod s) in *.
      destruct (Z.ltb_spec s (2 * ra)), (Z.ltb_spec s (2 * rb)),
        (Z.eqb_spec s (2 * ra)), (Z.eqb_spec s (2 * rb)), (Z.odd q);
        simpl; nia.
    + assert (a / 2 ^ ulpExp a < b / 2 ^ ulpExp a) as Hlt.
      { pose proof (Z.div_le_mono a b (2 ^ ulpExp a)). lia. }
      pose proof (roundNE_le_multiple a (a / 2 ^ ulpExp a + 1) Ha) as H1.
      pose proof (roundNE_ge_multiple b (b / 2 ^ ulpExp a) ltac:(lia)) as H2.
      rewrite <- Heq in H2. nia.
  - assert (ulpExp a < ulpExp b) as Hlt by lia.
    assert (0 < ulpExp b) as Hsb by lia.
    pose proof (log2_binade b _ Hsb eq_refl) as [Hb _].
    assert (a < 2 ^ (53 + ulpExp a)) as Hub.
    { destruct (decide (ulpExp a = 0)) as [H0|H0].
      - rewrite H0. by apply ulpExp_0_small.
      - apply (log2_binade a); lia. }
    rewrite Z.pow_add_r in Hub, Hb by lia.
    pose proof (roundNE_le_multiple a (2 ^ 53) Ha ltac:(lia)) as H1.
    pose proof (roundNE_ge_multiple b (2 ^ 52) ltac:(lia) ltac:(lia)) as H2.
    revert Hb H2.
    replace (ulpExp b) with (ulpExp a + 1 + (ulpExp b - ulpExp a - 1)) by lia.
    rewrite !Z.pow_add_r by lia.
    assert (0 < 2 ^ (ulpExp b - ulpExp a - 1)) by (apply pow2_pos; lia).
    assert (0 < 2 ^ ulpExp a) by (apply pow2_pos; lia).
    change (2 ^ 53) with (2 ^ 52 * 2). change (2 ^ 1) with 2. nia.
Qed.

Lemma ulpExp_mul_pow2 m e :
  0 ≤ m < 2 ^ 53 → 0 ≤ e → ulpExp (m * 2 ^ e) ≤ e.
Proof.
  intros Hm He. unfold ulpExp.
  destruct (decide (m = 0)) as [->|Hm0]; [simpl; lia|].
  rewrite Z.log2_mul_pow2 by lia.
  assert (Z.log2 m < 53) by (apply Z.log2_lt_pow2; lia). lia.
Qed.

Lemma roundNE_exact m e :
  0 ≤ m < 2 ^ 53 → 0 ≤ e → roundNE (m * 2 ^ e) = m * 2 ^ e.
Proof.
  intros Hm He. pose proof (ulpExp_mul_pow2 m e Hm He) as Hs.
  pose proof (ulpExp_nonneg (m * 2 ^ e)) as Hs0.
  pose proof (pow2_pos e He).
  apply roundNE_fix; [nia|].
  replace e with (e - ulpExp (m * 2 ^ e) + ulpExp (m * 2 ^ e)) at 1 by lia.
  rewrite Z.pow_add_r by lia. rewrite Z.mul_assoc. apply Z.mod_mul.
  pose proof (pow2_pos _ Hs0). lia.
Qed.

Lemma roundNE_idem a : 0 ≤ a → roundNE (roundNE a) = roundNE a.
Proof.
  intros Ha. pose proof (ulpExp_nonneg a) as Hs.
  destruct (decide (ulpExp a = 0)) as [H0|H0].
  - assert (roundNE a = a) as Hfix; [|by rewrite !Hfix].
    apply roundNE_fix; [done|]. rewrite H0. apply Z.mod_1_r.
  - pose proof (log2_binade a (ulpExp a) ltac:(lia) eq_refl) as [Hlo Hhi].
    rewrite Z.pow_add_r in Hlo, Hhi by lia.
    pose proof (roundNE_le_multiple a (2 ^ 53) Ha ltac:(lia)) as Hle.
    pose proof (roundNE_ge_multiple a (2 ^ 52) Ha ltac:(lia)) as Hge.
    assert (∃ k, roundNE a = k * 2 ^ ulpExp a) as [k Hk].
    { destruct (roundNE_cases a Ha) as [[H1 ->]|[_ [->| ->]]]; eauto.
      exists (a / 2 ^ ulpExp a). apply Z.div_exact in H1; [lia|].
      pose proof (pow2_pos _ Hs). lia. }
    pose proof (pow2_pos _ Hs) as Hpow.
    assert (2 ^ 52 ≤ k ≤ 2 ^ 53) as Hkb by (split; nia).
    rewrite Hk. destruct (decide (k = 2 ^ 53)) as [->|Hk53].
    + rewrite <- Z.pow_add_r by lia.
      replace (53 + ulpExp a) with (52 + (ulpExp a + 1)) by lia.
      rewrite Z.pow_add_r by lia. apply roundNE_exact; lia.
    + apply roundNE_exact; lia.
Qed.

Lemma round_fix a :
  0 ≤ a → roundNE a = a → a < 2 ^ 2098 → round a = Fin a.
Proof.
  intros Ha Hfix Hlt. unfold round. rewrite Z.abs_eq, Hfix by done.
  rewrite (proj2 (Z.leb_gt _ _)) by done.
  destruct (decide (a = 0)) as [->|]; [done|].
  rewrite Z.sgn_pos by lia. f_equal. lia.
Qed.

Lemma round_nonneg x : 0 ≤ x → nonnegFloat (round x).
Proof.
  intros Hx. pose proof (roundNE_nonneg x Hx) as Hy.
  pose proof (roundNE_idem x Hx) as Hidem.
  unfold round at 1. rewrite Z.abs_eq by done.
  destruct (Z.leb_spec (2 ^ 2098) (roundNE x)) as [Hov|Hov].
  - destruct (Z.ltb_spec 0 x); [done|].
    assert (x = 0) as -> by lia. by vm_compute in Hov.
  - destruct (decide (x = 0)) as [->|]; [by vm_compute|].
    rewrite Z.sgn_pos by lia. rewrite Z.mul_1_l.
    split; [done|]. by apply round_fix.
Qed.

Lemma round_mono x y : 0 ≤ x → x ≤ y → fle (round x) (round y).
Proof.
  intros Hx Hxy. pose proof (roundNE_mono x y Hx Hxy) as Hm.
  pose proof (roundNE_nonneg x Hx) as Hrx.
  assert (roundNE 0 = 0) as H00 by done.
  unfold round, fle. rewrite !Z.abs_eq by lia.
  destruct (Z.leb_spec (2 ^ 2098) (roundNE x)) as [Hox|Hox],
    (Z.leb_spec (2 ^ 2098) (roundNE y)) as [Hoy|Hoy].
  - destruct (Z.ltb_spec 0 x), (Z.ltb_spec 0 y); try done; lia.
  - lia.
  - destruct (Z.ltb_spec 0 y); [done|].
    assert (y = 0) as -> by lia. rewrite H00 in Hoy. lia.
  - simpl. apply Z.leb_le.
    destruct (decide (x = 0)) as [->|].
    + rewrite H00, Z.mul_0_r.
      pose proof (roundNE_nonneg y ltac:(lia)).
      destruct (decide (y = 0)) as [->|]; [done|].
      rewrite Z.sgn_pos by lia. lia.
    + rewrite !Z.sgn_pos by lia. lia.
Qed.

Lemma round_exact e m :
  0 ≤ e ≤ 2045 → 0 ≤ m < 2 ^ 53 → round (m * 2 ^ e) = Fin (m * 2 ^ e).
Proof.
  intros He Hm. pose proof (pow2_pos e ltac:(lia)) as Hpos.
  apply round_fix; [nia|apply roundNE_exact; lia|].
  assert (2 ^ e ≤ 2 ^ 2045) by (apply Z.pow_le_mono_r; lia).
  change (2 ^ 2098) with (2 ^ 53 * 2 ^ 2045). nia.
Qed.

(** ** Arithmetic of weights *)

Ltac float_cases :=
  repeat match goal with
         | x : float64 |- _ =>
           first [ match goal with |- context [x] => idtac end
                 | match goal with H : context [x] |- _ => idtac end ];
           destruct x
         end;
  unfold fle, fleb, fgt, IsInf, isNaN in *; cbv beta iota in *;
  try discriminate; try done;
  repeat match goal with
         | H : (_ <? _) = false |- _ => apply Z.ltb_ge in H
         | H : (_ <? _) = true |- _ => apply Z.ltb_lt in H
         | H : (_ <=? _) = false |- _ => apply Z.leb_gt in H
         | H : (_ <=? _) = true |- _ => apply Z.leb_le in H
         | |- (_ <? _) = false => apply Z.ltb_ge
         | |- (_ <? _) = true => apply Z.ltb_lt
         | |- (_ <=? _) = false => apply Z.leb_gt
         | |- (_ <=? _) = true => apply Z.leb_le
         | H : Fin _ = Fin _ |- _ => injection H as H
         | |- Fin _ = Fin _ => f_equal
         end;
  try lia.

Ltac compare_cases :=
  repeat match goal with
         | |- context [?x <? ?y] => destruct (Z.ltb_spec x y)
         | H : context [?x <? ?y] |- _ => destruct (Z.ltb_spec x y)
         end;
  simpl in *; lia.

Lemma byWeight_fle a b :
  byWeight a b → isNaN (yenShortest.weight a) = false →
  fle (yenShortest.weight a) (yenShortest.weight b).
Proof.
  destruct a as [? a], b as [? b]. unfold byWeight, Compare, fle. simpl.
  destruct a, b; simpl; try done; try lia.
  intros H _. apply Z.leb_le. compare_cases.
Qed.

Lemma fle_refl a : isNaN a = false → fle a a.
Proof. intros; float_cases. Qed.

Lemma fle_trans a b c : fle a b → fle b c → fle a c.
Proof. intros; float_cases. Qed.

Lemma fle_fgt a b : fle a b → fgt a b = false.
Proof. intros; float_cases. Qed.

Lemma fgt_false_fle a b :
  fgt a b = false → isNaN a = false → isNaN b = false → fle a b.
Proof. intros; float_cases. Qed.

Lemma fgt_true_fle a b : fgt a b = true → fle b a.
Proof. intros; float_cases. Qed.

Lemma nonnegFloat_not_NaN a : nonnegFloat a → isNaN a = false.
Proof. by destruct a. Qed.

Lemma nonnegFloat_zero : nonnegFloat (Fin 0).
Proof. by split. Qed.

Lemma fadd_comm a b : fadd a b = fadd b a.
Proof. destruct a, b; simpl; try done. by rewrite Z.add_comm. Qed.

Lemma fadd_nonneg x w : nonnegFloat x → 0 ≤ w → nonnegFloat (fadd x (Fin w)).
Proof.
  destruct x as [a| | |]; try done. intros [Ha _] Hw.
  apply round_nonneg. lia.
Qed.

Lemma fadd_ge x w : nonnegFloat x → 0 ≤ w → fle x (fadd x (Fin w)).
Proof.
  destruct x as [a| | |]; try done. intros [Ha Hfix] Hw. simpl.
  rewrite <- Hfix at 1. apply round_mono; lia.
Qed.

Lemma fadd_mono x x' w :
  nonnegFloat x → nonnegFloat x' → fle x x' → 0 ≤ w →
  fle (fadd x (Fin w)) (fadd x' (Fin w)).
Proof.
  destruct x as [a| | |], x' as [a'| | |]; try done.
  - intros [Ha _] [Ha' _] Hle Hw. simpl. apply round_mono; [lia|].
    apply Z.leb_le in Hle. lia.
  - intros [Ha _] _ _ Hw. simpl.
    pose proof (round_nonneg (a + w) ltac:(lia)) as Hr.
    by destruct (round (a + w)).
Qed.

Lemma fadd_exact e m1 m2 :
  0 ≤ e ≤ 2045 → 0 ≤ m1 → 0 ≤ m2 → m1 + m2 < 2 ^ 53 →
  fadd (Fin (m1 * 2 ^ e)) (Fin (m2 * 2 ^ e)) = Fin ((m1 + m2) * 2 ^ e).
Proof.
  intros He H1 H2 Hlt. simpl. rewrite <- Z.mul_add_distr_r.
  apply round_exact; lia.
Qed.

Lemma ofInt_small n : 0 ≤ n < 2 ^ 53 → ofInt n = Fin (n * 2 ^ 1074).
Proof. intros Hn. apply round_exact; lia. Qed.

(** ** Path weights *)

Lemma pathWeight_nil w : pathWeight w [] = Fin 0.
Proof. done. Qed.

Lemma pathWeight_singleton w a : pathWeight w [a] = Fin 0.
Proof. done. Qed.

Lemma sumWeights_cons w acc a b l :
  sumWeights w acc (a :: b :: l) = sumWeights w (fadd acc (w a b).1) (b :: l).
Proof. done. Qed.

Lemma sumWeights_app w acc l1 x l2 :
  sumWeights w acc (l1 ++ x :: l2)
  = sumWeights w (sumWeights w acc (l1 ++ [x])) (x :: l2).
Proof.
  revert acc. induction l1 as [|a l1 IH]; intros acc; [done|].
  destruct l1 as [|b l1]; cbn [app] in *.
  - by rewrite !sumWeights_cons.
  - by rewrite !(sumWeights_cons _ _ a b), IH.
Qed.

Lemma zsum_app w l1 x l2 :
  zsum w (l1 ++ x :: l2) = zsum w (l1 ++ [x]) + zsum w (x :: l2).
Proof.
  induction l1 as [|a l1 IH]; [done|].
  destruct l1 as [|b l1]; cbn [app] in *.
  - simpl. lia.
  - change (zsum w (a :: b :: ?l)) with (zval (w a b).1 + zsum w (b :: l)).
    rewrite IH. lia.
Qed.

(** ** Membership in the masked neighbourhood *)

Lemma canWalk_true g u v :
  canWalk g u v = true ↔ (v ∉ visitedNodes g) ∧ ((u, v) ∉ visitedEdges g).
Proof.
  unfold canWalk. case_decide.
  - naive_solver.
  - rewrite negb_true_iff, bool_decide_eq_false. naive_solver.
Qed.

Lemma last_removelast {A} (l : list A) y :
  last l = Some y → l = removelast l ++ [y].
Proof.
  intros [l' ->]%last_Some. by rewrite removelast_last.
Qed.

Lemma elem_of_fromLoop g id v fuel nodes :
  (length nodes ≤ fuel)%nat →
  v ∈ fromLoop g id fuel nodes ↔ v ∈ nodes ∧ canWalk g id v = true.
Proof.
  revert nodes. induction fuel as [|fuel IH]; intros nodes Hlen.
  - destruct nodes; simpl in *; [|lia]. set_solver.
  - destruct nodes as [|x rest]; simpl in *; [set_solver|].
    destruct (canWalk g id x) eqn:Hx.
    + rewrite elem_of_cons, IH by lia. rewrite elem_of_cons. naive_solver.
    + destruct (last rest) as [y|] eqn:Hy.
      * pose proof (last_removelast _ _ Hy) as Hrest.
        assert (∀ z, z ∈ y :: removelast rest ↔ z ∈ rest) as Hel.
        { intros z. rewrite Hrest at 2.
          rewrite elem_of_app, elem_of_cons, list_elem_of_singleton.
          naive_solver. }
        rewrite IH, Hel, elem_of_cons.
        2:{ simpl. rewrite Hrest, length_app in Hlen. simpl in Hlen. lia. }
        split; [naive_solver|]. intros [[->|?] Hc]; [congruence|done].
      * apply last_None in Hy as ->. rewrite list_elem_of_singleton.
        split; [set_solver|]. intros [-> ?]. congruence.
Qed.

Lemma elem_of_From g u v :
  v ∈ From g u ↔
  (u ∉ visitedNodes g) ∧ v ∈ graph.From (Graph g) u ∧ canWalk g u v = true.
Proof.
  unfold From. case_decide.
  - split; [by intros ?%elem_of_nil | naive_solver].
  - rewrite elem_of_fromLoop by lia. naive_solver.
Qed.

Lemma fromLoop_all g id fuel nodes :
  (length nodes ≤ fuel)%nat →
  Forall (λ v, canWalk g id v = true) nodes →
  fromLoop g id fuel nodes = nodes.
Proof.
  revert nodes. induction fuel as [|fuel IH]; intros [|x rest] Hlen Hall;
    simpl in *; try done; try lia.
  apply Forall_cons in Hall as [-> Hall]. f_equal. apply IH; [lia|done].
Qed.

(** ** The view never touches the wrapped graph *)

Lemma applyOp_frame yk op :
  Graph (applyOp yk op) = Graph yk
  ∧ isDirected (applyOp yk op) = isDirected yk
  ∧ weight (applyOp yk op) = weight yk.
Proof. by destruct op. Qed.

Lemma foldl_applyOp_frame ops yk :
  Graph (foldl applyOp yk ops) = Graph yk
  ∧ isDirected (foldl applyOp yk ops) = isDirected yk
  ∧ weight (foldl applyOp yk ops) = weight yk.
Proof.
  revert yk. induction ops as [|op ops IH]; intros yk; simpl; [done|].
  destruct (IH (applyOp yk op)) as (-> & -> & ->). apply applyOp_frame.
Qed.

(** C8. Whatever sequence of [reset], [removeNode] and [removeEdge] has been
    applied to the view, the wrapped graph, its direction flag and its
    weight function are the ones the view started with, and [Weight] on the
    view answers exactly what the underlying weight function answers; the
    two read-only operations [From] and [Weight] return plain values and
    leave the view as it is. *)
Theorem view_never_alters_graph (yk : yenKSPAdjuster) (ops : list maskOp)
    (x y : Z) :
  let yk' := foldl applyOp yk ops in
  Graph yk' = Graph yk
  ∧ isDirected yk' = isDirected yk
  ∧ Weight yk' x y = weight yk x y
  ∧ (∀ id, From yk' id ⊆ graph.From (Graph yk) id).
Proof.
  intros yk'. destruct (foldl_applyOp_frame ops yk) as (HG & HD & HW).
  repeat split; try done.
  - unfold Weight, yk'. by rewrite HW.
  - intros id v Hv. apply elem_of_From in Hv as (_ & Hv & _).
    unfold yk' in Hv. by rewrite HG in Hv.
Qed.

(** ** The first query decides the degenerate cases *)

Section FirstQuery.

Variable DijkstraFromTo : Z → Z → yenKSPAdjuster → result (list Z * float64).
Variable SortFunc : list yenShortest.t → list yenShortest.t.
Variable UniformCost : graph.Graph → Weighting.

(** C7. When the first query finds no path the result is empty, whatever
    [k] is, and when it finds the path made of the source alone that path
    is the whole result; neither case is a failure, and neither depends on
    the fuel. *)
Theorem unreachable_or_trivial (fuel : nat) (g : graph.Graph) (k : Z)
    (cost : float64) (s t : Z) (p : list Z) (w : float64) :
  DijkstraFromTo s t (newAdjuster UniformCost g) = Ok (p, w) →
  (p = [] →
   YenKShortestPaths DijkstraFromTo SortFunc UniformCost fuel g k cost s t
   = Ok [])
  ∧ (p = [s] →
     YenKShortestPaths DijkstraFromTo SortFunc UniformCost fuel g k cost s t
     = Ok [[s]]).
Proof.
  intros HD. unfold YenKShortestPaths. rewrite HD. simpl.
  split; intros ->; done.
Qed.

(** C9. With [k = 0] and a path found by the first query, the result is
    that single path, the same as with [k = 1]: the bound on the count is
    only tested by the loop condition, after the first path is accepted. *)
Theorem zero_k_returns_shortest (fuel : nat) (g : graph.Graph)
    (cost : float64) (s t : Z) (p : list Z) (w : float64) :
  DijkstraFromTo s t (newAdjuster UniformCost g) = Ok (p, w) →
  p ≠ [] →
  YenKShortestPaths DijkstraFromTo SortFunc UniformCost fuel g 0 cost s t
  = Ok [p]
  ∧ YenKShortestPaths DijkstraFromTo SortFunc UniformCost fuel g 0 cost s t
    = YenKShortestPaths DijkstraFromTo SortFunc UniformCost fuel g 1 cost s t.
Proof.
  intros HD Hp. unfold YenKShortestPaths. rewrite HD. simpl.
  destruct p as [|a [|b p]]; [done|done|].
  destruct fuel; done.
Qed.

End FirstQuery.

(** ** The index [path[n+1]] of the root match *)

Lemma samePrefix_take root path :
  samePrefix root path = true → take (length root) path = root.
Proof.
  revert path. induction root as [|x root IH]; intros [|y path] H;
    simpl in *; try done.
  case_decide; [|done]. subst. f_equal. by apply IH.
Qed.

Lemma take_samePrefix root path :
  take (length root) path = root → samePrefix root path = true.
Proof.
  revert path. induction root as [|x root IH]; intros [|y path] H;
    simpl in *; try done.
  injection H as -> H. rewrite decide_True by done. by apply IH.
Qed.

Lemma root_match_length (path root : list Z) (t : Z) (n : nat) :
  last path = Some t →
  length root = S n →
  (n < length path)%nat →
  take (S n) path = root →
  last root ≠ Some t →
  (n + 2 ≤ length path)%nat.
Proof.
  intros Hlast Hroot Hlen Htake Hspur.
  destruct (decide (length path = S n)) as [Heq|]; [|lia].
  exfalso. apply Hspur. rewrite <- Heq, firstn_all in Htake. by subst.
Qed.

(** C10. An accepted path that is longer than [n], starts with the root of
    length [n + 1] and ends at the target has at least [n + 2] nodes as
    soon as the spur node, the last node of the root, is not the target;
    so the index [path[n+1]] is in range.  (Looplessness of the path is
    not even needed.) *)
Theorem root_match_index_in_bounds (path root : list Z) (t : Z) (n : nat) :
  last path = Some t →
  length root = S n →
  (n < length path)%nat →
  samePrefix root path = true →
  last root ≠ Some t →
  (n + 2 ≤ length path)%nat ∧ ∃ v, index path (S n) = Ok v.
Proof.
  intros Hlast Hroot Hlen Hsame Hspur.
  apply samePrefix_take in Hsame. rewrite Hroot in Hsame.
  pose proof (root_match_length path root t n Hlast Hroot Hlen Hsame Hspur)
    as Hge.
  split; [done|]. unfold index.
  destruct (lookup_lt_is_Some_2 path (S n) ltac:(lia)) as [v ->]. eauto.
Qed.

(** ** Paths as lists: comparison, common prefixes, chains *)

Lemma samePrefix_refl a : samePrefix a a = true.
Proof. induction a; simpl; [done|]. by rewrite decide_True. Qed.

Lemma isSamePath_true a b : isSamePath a b = true ↔ a = b.
Proof.
  unfold isSamePath. split.
  - case_decide as Hlen; [|done]. intros H%samePrefix_take.
    rewrite Hlen, firstn_all in H. done.
  - intros ->. rewrite decide_True by done. apply samePrefix_refl.
Qed.

Lemma lcp_le_l a b : (lcp a b ≤ length a)%nat.
Proof.
  revert b. induction a as [|x a IH]; intros [|y b]; simpl; try lia.
  case_decide; [|lia]. specialize (IH b). lia.
Qed.

Lemma lcp_le_r a b : (lcp a b ≤ length b)%nat.
Proof.
  revert b. induction a as [|x a IH]; intros [|y b]; simpl; try lia.
  case_decide; [|lia]. specialize (IH b). lia.
Qed.

Lemma take_lcp a b : take (lcp a b) a = take (lcp a b) b.
Proof.
  revert b. induction a as [|x a IH]; intros [|y b]; simpl; try done.
  case_decide; [|done]. subst. simpl. f_equal. apply IH.
Qed.

Lemma lcp_take_eq m a b : (m ≤ lcp a b)%nat → take m a = take m b.
Proof.
  intros Hm. rewrite <- (Nat.min_l m (lcp a b)) by done.
  rewrite <- !take_take. f_equal. apply take_lcp.
Qed.

Lemma lcp_ge m a b :
  (m ≤ length a)%nat → (m ≤ length b)%nat → take m a = take m b →
  (m ≤ lcp a b)%nat.
Proof.
  revert a b. induction m as [|m IH]; intros [|x a] [|y b] Ha Hb Heq;
    simpl in *; try lia.
  injection Heq as -> Heq. rewrite decide_True by done.
  apply le_n_S, IH; [lia|lia|done].
Qed.

Lemma lcp_lookup m a b x :
  (m < lcp a b)%nat → a !! m = Some x → b !! m = Some x.
Proof.
  intros Hm Ha.
  assert (take (lcp a b) a !! m = Some x) as H by by rewrite lookup_take_lt.
  rewrite take_lcp, lookup_take_lt in H; done.
Qed.

Lemma lcp_pos a b x :
  head a = Some x → head b = Some x → (0 < lcp a b)%nat.
Proof.
  destruct a, b; simpl; try done. intros [= ->] [= ->].
  rewrite decide_True by done. lia.
Qed.

Lemma chain_lookup yk p :
  chain yk p ↔
  ∀ j a b, p !! j = Some a → p !! S j = Some b → b ∈ From yk a.
Proof.
  induction p as [|x p IH]; [by split|].
  destruct p as [|y p]; [by split|].
  change (chain yk (x :: y :: p)) with (y ∈ From yk x ∧ chain yk (y :: p)).
  rewrite IH. split.
  - intros [Hxy Hrest] [|j] a b Ha Hb; simpl in *.
    + by simplify_eq.
    + by eapply Hrest.
  - intros H. split.
    + by apply (H O).
    + intros j a b Ha Hb. by apply (H (S j)).
Qed.

Lemma chain_take yk p m : chain yk p → chain yk (take m p).
Proof.
  rewrite !chain_lookup. intros H j a b Ha Hb.
  apply lookup_take_Some in Ha as [Ha _], Hb as [Hb _]. eauto.
Qed.

Lemma chain_drop yk p m : chain yk p → chain yk (drop m p).
Proof.
  rewrite !chain_lookup. intros H j a b Ha Hb.
  rewrite lookup_drop in Ha, Hb. apply (H (m + j)%nat); [done|].
  by replace (S (m + j)) with (m + S j)%nat by lia.
Qed.

Lemma chain_app yk l1 x l2 :
  chain yk (l1 ++ [x]) → chain yk (x :: l2) → chain yk (l1 ++ x :: l2).
Proof.
  rewrite !chain_lookup. intros H1 H2 j a b Ha Hb.
  destruct (decide (j < length l1)%nat) as [Hj|Hj].
  - apply (H1 j).
    + by rewrite lookup_app_l in Ha |- * by done.
    + destruct (decide (S j < length l1)%nat).
      * by rewrite lookup_app_l in Hb |- * by done.
      * rewrite lookup_app_r in Hb |- * by lia.
        replace (S j - length l1)%nat with O in * by lia. done.
  - rewrite lookup_app_r in Ha, Hb by lia.
    apply (H2 (j - length l1)%nat); [done|].
    by replace (S (j - length l1)) with (S j - length l1)%nat by lia.
Qed.

Lemma chain_mono yk yk' p :
  (∀ a b, b ∈ From yk a → b ∈ From yk' a) → chain yk p → chain yk' p.
Proof. rewrite !chain_lookup. eauto. Qed.

Lemma From_reset yk u : From (reset yk) u = graph.From (Graph yk) u.
Proof.
  unfold From. rewrite decide_False by set_solver. simpl.
  apply fromLoop_all; [lia|]. apply Forall_forall. intros v _.
  apply canWalk_true. simpl. set_solver.
Qed.

Lemma From_subseteq_reset yk yk' a b :
  Graph yk' = Graph yk → b ∈ From yk' a → b ∈ From (reset yk) a.
Proof.
  intros HG (_ & H & _)%elem_of_From. by rewrite From_reset, <- HG.
Qed.

(** ** What the masks of one spur query contain *)

Lemma elem_of_removeEdge yk u v a b :
  (a, b) ∈ visitedEdges (removeEdge yk u v) ↔
  (a, b) ∈ visitedEdges yk ∨ (a = u ∧ b = v)
  ∨ (isDirected yk = false ∧ a = v ∧ b = u).
Proof.
  unfold removeEdge. simpl. destruct (isDirected yk).
  - rewrite elem_of_union, elem_of_singleton. naive_solver.
  - rewrite !elem_of_union, !elem_of_singleton. naive_solver.
Qed.

Lemma index_Ok {A} (l : list A) j x : index l j = Ok x ↔ l !! j = Some x.
Proof. unfold index. destruct (l !! j); naive_solver. Qed.

Lemma rootEdge_nil d root n a b : ¬ rootEdge d [] root n a b.
Proof. intros (? & []%elem_of_nil & _). Qed.

Lemma rootEdge_cons d path rest root n a b :
  rootEdge d (path :: rest) root n a b ↔
  ((n < length path)%nat ∧ samePrefix root path = true
    ∧ ((path !! n = Some a ∧ path !! S n = Some b)
       ∨ (d = false ∧ path !! n = Some b ∧ path !! S n = Some a)))
  ∨ rootEdge d rest root n a b.
Proof.
  unfold rootEdge. split.
  - intros (p & [->|Hp]%elem_of_cons & H1); [by left|].
    right. by exists p.
  - intros [H1|(p & Hp & H1)].
    + exists path. split; [left|done].
    + exists p. split; [by right|done].
Qed.

Lemma removeRootEdges_spec yk paths root n yk' :
  removeRootEdges yk paths root n = Ok yk' →
  Graph yk' = Graph yk ∧ isDirected yk' = isDirected yk
  ∧ weight yk' = weight yk ∧ visitedNodes yk' = visitedNodes yk
  ∧ ∀ a b, (a, b) ∈ visitedEdges yk' ↔
      (a, b) ∈ visitedEdges yk ∨ rootEdge (isDirected yk) paths root n a b.
Proof.
  revert yk. induction paths as [|path rest IH]; intros yk H; simpl in H.
  - injection H as <-. split_and!; try done. intros a b. split; [tauto|].
    intros [?|[]%rootEdge_nil]. done.
  - destruct (length path <=? n)%nat eqn:Hlen.
    { apply Nat.leb_le in Hlen.
      apply IH in H as (HG & HD & HW & HN & Hedges).
      split_and!; try done. intros a b. rewrite Hedges, rootEdge_cons.
      split; [tauto|]. intros [?|[(? & _)|?]]; [tauto|lia|tauto]. }
    apply Nat.leb_gt in Hlen.
    destruct (samePrefix root path) eqn:Hsame.
    + destruct (index path n) as [u| |] eqn:Hu; try done.
      destruct (index path (S n)) as [v| |] eqn:Hv; try done.
      simpl in H. apply index_Ok in Hu, Hv.
      apply IH in H as (HG & HD & HW & HN & Hedges).
      split_and!; try done. intros a b.
      rewrite Hedges, rootEdge_cons, elem_of_removeEdge. simpl.
      split.
      * intros [[?|[[-> ->]|(? & -> & ->)]]|?]; [tauto| | |tauto].
        -- right. left. split_and!; try done. by left.
        -- right. left. split_and!; try done. by right.
      * intros [?|[(_ & _ & [[Ha Hb]|(Hd & Ha & Hb)])|?]];
          [tauto| | |tauto]; rewrite Hu in Ha; rewrite Hv in Hb;
          simplify_eq; tauto.
    + apply IH in H as (HG & HD & HW & HN & Hedges).
      split_and!; try done. intros a b. rewrite Hedges, rootEdge_cons.
      split; [tauto|]. intros [?|[(_ & ? & _)|?]]; [tauto|congruence|tauto].
Qed.

Lemma foldl_removeNode_spec yk l :
  Graph (foldl removeNode yk l) = Graph yk
  ∧ isDirected (foldl removeNode yk l) = isDirected yk
  ∧ weight (foldl removeNode yk l) = weight yk
  ∧ visitedEdges (foldl removeNode yk l) = visitedEdges yk
  ∧ ∀ x, x ∈ visitedNodes (foldl removeNode yk l) ↔
      x ∈ visitedNodes yk ∨ x ∈ l.
Proof.
  revert yk. induction l as [|u l IH]; intros yk; simpl.
  - split_and!; try done. intros x. split; [tauto|].
    intros [?|[]%elem_of_nil]. done.
  - destruct (IH (removeNode yk u)) as (-> & -> & -> & -> & Hn).
    split_and!; try done. intros x. rewrite Hn. simpl.
    rewrite elem_of_union, elem_of_singleton, elem_of_cons. tauto.
Qed.

(** ** One spur query, taken apart *)

Section SpurBody.

Variable DijkstraFromTo : Z → Z → yenKSPAdjuster → result (list Z * float64).

Lemma spurBody_inv yk t cost paths prev pot n pot' :
  (S n < length prev)%nat →
  spurBody DijkstraFromTo yk t cost paths prev pot n = Ok pot' →
  ∃ spur ykm spath w,
    prev !! n = Some spur
    ∧ spurView yk ykm paths prev n
    ∧ DijkstraFromTo spur t ykm = Ok (spath, w)
    ∧ ((fgt w cost || IsInf w = true ∧ pot' = pot)
       ∨ (fgt w cost = false ∧ IsInf w = false
          ∧ pot' = addPot pot (take n prev ++ spath)
                     (if (1 <? S n)%nat
                      then fadd w (pathWeight (weight yk) (take (S n) prev))
                      else w))).
Proof.
  intros Hn H. unfold spurBody in H.
  destruct (index prev n) as [spur| |] eqn:Hspur; try done.
  apply index_Ok in Hspur. simpl in H.
  destruct (removeRootEdges (reset yk) paths (take (S n) prev) n)
    as [yk1| |] eqn:Hedges; try done.
  simpl in H.
  apply removeRootEdges_spec in Hedges as (HG & HD & HW & HN & HE).
  set (ykm := removeRootNodes yk1 (take (S n) prev)) in *.
  destruct (foldl_removeNode_spec yk1
    (take (length (take (S n) prev) - 1) (take (S n) prev)))
    as (HG' & HD' & HW' & HE' & HN').
  fold (removeRootNodes yk1 (take (S n) prev)) in HG', HD', HW', HE', HN'.
  fold ykm in HG', HD', HW', HE', HN'.
  assert (length (take (S n) prev) = S n) as Hlen
    by (rewrite length_take; lia).
  rewrite Hlen in *.
  replace (S n - 1)%nat with n in * by lia.
  rewrite take_take in *. replace (n `min` S n)%nat with n in * by lia.
  destruct (DijkstraFromTo spur t ykm) as [[spath w]| |] eqn:HD0; try done.
  simpl in H.
  assert (spurView yk ykm paths prev n) as Hview.
  { split_and!.
    - by rewrite HG', HG.
    - by rewrite HW', HW.
    - intros x. rewrite HN', HN. simpl. set_solver.
    - intros a b. rewrite HE', HE. simpl. set_solver. }
  exists spur, ykm, spath, w. split_and!; try done.
  destruct (fgt w cost || IsInf w) eqn:Hskip.
  - left. by injection H as <-.
  - right. apply orb_false_iff in Hskip as [? ?]. split_and!; try done.
    destruct (1 <? S n)%nat eqn:Hroot.
    + injection H as <-. unfold pathWeight. by rewrite HW', HW.
    + apply Nat.ltb_ge in Hroot. assert (n = O) as -> by lia.
      by injection H as <-.
Qed.

End SpurBody.

Lemma chain_not_visited yk p j x :
  chain yk p → p !! S j = Some x → x ∉ visitedNodes yk.
Proof.
  rewrite chain_lookup. intros Hc Hx.
  destruct (lookup_lt_is_Some_2 p j) as [a Ha].
  { apply lookup_lt_Some in Hx. lia. }
  specialize (Hc j a x Ha Hx).
  apply elem_of_From in Hc as (_ & _ & Hw).
  by apply canWalk_true in Hw as [Hw _].
Qed.

Lemma walk_length_2 yk u t p : walk yk u t p → u ≠ t → (2 ≤ length p)%nat.
Proof.
  intros (Hh & Hl & _) Hne. destruct p as [|a [|b p]]; simpl in *; try lia.
  - done.
  - congruence.
Qed.

Lemma NoDup_lookup_ne {A} (l : list A) j1 j2 x y :
  NoDup l → l !! j1 = Some x → l !! j2 = Some y → j1 ≠ j2 → x ≠ y.
Proof.
  intros Hnd H1 H2 Hne ->. apply Hne. by eapply NoDup_lookup.
Qed.

Section SpurCandidate.

Variable DijkstraFromTo : Z → Z → yenKSPAdjuster → result (list Z * float64).
Hypothesis sound : oracleSound DijkstraFromTo.

Lemma spur_not_target yk s t prev n spur :
  walk yk s t prev → NoDup prev → (S n < length prev)%nat →
  prev !! n = Some spur → spur ≠ t.
Proof.
  intros (_ & Hl & _) Hnd Hn Hspur. rewrite last_lookup in Hl.
  eapply NoDup_lookup_ne; [done|done|done|]. lia.
Qed.

Lemma spur_candidate yk ykm s t paths prev n spur spath w :
  spurView yk ykm paths prev n →
  walk (reset yk) s t prev → NoDup prev → (S n < length prev)%nat →
  prev !! n = Some spur →
  DijkstraFromTo spur t ykm = Ok (spath, w) → IsInf w = false →
  let c := take n prev ++ spath in
  walk ykm spur t spath ∧ NoDup spath
  ∧ w = pathWeight (weight yk) spath
  ∧ (2 ≤ length spath)%nat
  ∧ walk (reset yk) s t c ∧ NoDup c
  ∧ take (S n) c = take (S n) prev
  ∧ c ∉ paths.
Proof.
  intros (HG & HW & HN & HE) Hprev Hnd Hn Hspur HD Hinf c.
  destruct (sound _ _ _ _ _ HD) as [[-> ->]|(Hwalk & Hnds & Hw)]; [done|].
  rewrite HW in Hw.
  assert (spur ≠ t) as Hne by eauto using spur_not_target.
  pose proof (walk_length_2 _ _ _ _ Hwalk Hne) as Hlen.
  destruct Hwalk as (Hhead & Hlast & Hchain).
  destruct spath as [|a [|v rest]]; simpl in Hlen; try lia.
  injection Hhead as ->.
  assert (take (S n) c = take (S n) prev) as Htake.
  { unfold c. rewrite take_app_ge by (rewrite length_take; lia).
    rewrite length_take. replace (S n - n `min` length prev)%nat with 1%nat
      by lia.
    simpl. by rewrite (take_S_r _ _ _ Hspur). }
  destruct Hprev as (Hs & Ht & Hpc).
  assert (chain (reset yk) c) as Hcc.
  { unfold c. apply chain_app.
    - rewrite <- (take_S_r _ _ _ Hspur). by apply chain_take.
    - eapply chain_mono; [|done]. intros x y. by apply From_subseteq_reset. }
  split_and!; try done.
  - split_and!; [| |done].
    + rewrite head_lookup in Hs |- *.
      by rewrite <- (lookup_take_lt c (S n) 0), Htake, lookup_take_lt by lia.
    + unfold c. rewrite last_app. by rewrite Hlast.
  - unfold c. apply NoDup_app. split_and!; try done.
    + apply (sublist_NoDup _ prev); [done|apply sublist_take].
    + intros x Hx1 Hx2. apply list_elem_of_lookup in Hx2 as [[|j] Hj].
      * injection Hj as ->.
        apply list_elem_of_lookup in Hx1 as [j Hj].
        apply lookup_take_Some in Hj as [Hj ?].
        pose proof (NoDup_lookup _ _ _ _ Hnd Hj Hspur). lia.
      * eapply chain_not_visited in Hj; [|done]. by apply Hj, HN.
  - intros Hc. assert ((spur, v) ∈ visitedEdges ykm) as Hin.
    { apply HE. exists c. split_and!; try done.
      - unfold c. rewrite length_app, length_take. simpl. lia.
      - apply take_samePrefix. rewrite length_take.
        replace (S n `min` length prev)%nat with (S n) by lia. done.
      - left. unfold c. rewrite !lookup_app_r by (rewrite length_take; lia).
        rewrite length_take.
        replace (n - n `min` length prev)%nat with O by lia.
        replace (S n - n `min` length prev)%nat with 1%nat by lia. done. }
    rewrite chain_lookup in Hchain.
    specialize (Hchain O spur v eq_refl eq_refl).
    apply elem_of_From in Hchain as (_ & _ & Hcw).
    apply canWalk_true in Hcw as [_ Hcw]. done.
Qed.

End SpurCandidate.

(** ** The structural invariant of the loops *)

Lemma addPot_spec pot p w :
  (addPot pot p w = pot ∧ p ∈ yenShortest.path <$> pot)
  ∨ (addPot pot p w = pot ++ [yenShortest.mk p w]
     ∧ p ∉ yenShortest.path <$> pot).
Proof.
  unfold addPot.
  destruct (existsb _ pot) eqn:Hex.
  - left. split; [done|]. apply existsb_exists in Hex as (c & Hc & Heq).
    apply isSamePath_true in Heq as <-. apply list_elem_of_In in Hc.
    by apply list_elem_of_fmap_2.
  - right. split; [done|]. intros (c & -> & Hc)%list_elem_of_fmap.
    apply not_true_iff_false in Hex. apply Hex, existsb_exists.
    exists c. split; [by apply list_elem_of_In|]. by apply isSamePath_true.
Qed.

Lemma indexZ_last {A} (l : list A) (j : Z) x :
  j = Z.of_nat (length l) → indexZ l (j - 1) = Ok x → last l = Some x.
Proof.
  intros -> H. unfold indexZ in H.
  destruct (Z.of_nat (length l) - 1 <? 0) eqn:Hneg; [done|].
  apply Z.ltb_ge in Hneg. apply index_Ok in H. rewrite last_lookup.
  rewrite <- H. f_equal. lia.
Qed.

Lemma last_elem_of {A} (l : list A) x : last l = Some x → x ∈ l.
Proof. intros [l' ->]%last_Some. set_solver. Qed.

Section Structure.

Variable DijkstraFromTo : Z → Z → yenKSPAdjuster → result (list Z * float64).
Variable SortFunc : list yenShortest.t → list yenShortest.t.
Hypothesis sound : oracleSound DijkstraFromTo.
Hypothesis permutes : sortPermutes SortFunc.

Variable yk : yenKSPAdjuster.
Variables s t : Z.
Variable cost : float64.

Lemma spurBody_struct paths prev pot n pot' :
  Forall (acceptedOk yk s t) paths → prev ∈ paths →
  (S n < length prev)%nat →
  Forall (candidateOk yk s t) pot →
  NoDup (paths ++ (yenShortest.path <$> pot)) →
  spurBody DijkstraFromTo yk t cost paths prev pot n = Ok pot' →
  Forall (candidateOk yk s t) pot'
  ∧ NoDup (paths ++ (yenShortest.path <$> pot'))
  ∧ pot ⊆ pot'.
Proof.
  intros Hpaths Hprev Hn Hpot Hnd H.
  apply spurBody_inv in H
    as (spur & ykm & spath & w & Hspur & Hview & HD & Hcase); [|done].
  destruct Hcase as [[_ ->]|(_ & Hinf & ->)]; [done|].
  rewrite Forall_forall in Hpaths.
  destruct (Hpaths _ Hprev) as ((Hwalk & Hndp) & _).
  destruct (spur_candidate _ sound _ _ _ _ _ _ _ _ _ _ Hview Hwalk Hndp Hn
              Hspur HD Hinf)
    as (_ & _ & _ & Hlen & Hcw & Hcnd & _ & Hcnew).
  destruct (addPot_spec pot (take n prev ++ spath)
              (if (1 <? S n)%nat
               then fadd w (pathWeight (weight yk) (take (S n) prev))
               else w))
    as [[-> _]|[-> Hnew]]; [done|].
  split_and!.
  - apply Forall_app. split; [done|]. apply Forall_singleton.
    split_and!; simpl; try done.
    rewrite length_app. lia.
  - rewrite fmap_app, app_assoc. simpl. apply NoDup_app. split_and!.
    + done.
    + intros x Hx ->%list_elem_of_singleton.
      apply elem_of_app in Hx as [?|?]; done.
    + apply NoDup_singleton.
  - intros c Hc. apply elem_of_app. by left.
Qed.

Lemma spurLoop_struct paths prev count n pot pot' :
  Forall (acceptedOk yk s t) paths → prev ∈ paths →
  (n + count < length prev)%nat →
  Forall (candidateOk yk s t) pot →
  NoDup (paths ++ (yenShortest.path <$> pot)) →
  spurLoop DijkstraFromTo yk t cost paths prev count n pot = Ok pot' →
  Forall (candidateOk yk s t) pot'
  ∧ NoDup (paths ++ (yenShortest.path <$> pot'))
  ∧ pot ⊆ pot'.
Proof.
  intros Hpaths Hprev. revert n pot.
  induction count as [|count IH]; intros n pot Hn Hpot Hnd H; simpl in H.
  - by injection H as <-.
  - destruct (spurBody _ _ _ _ _ _ _ _) as [pot1| |] eqn:Hbody; try done.
    simpl in H.
    apply spurBody_struct in Hbody as (Hpot1 & Hnd1 & Hsub1);
      [|done|done|lia|done|done].
    apply IH in H as (? & ? & ?); [|lia|done|done].
    split_and!; try done. set_solver.
Qed.

Lemma iteration_break st ps :
  iteration DijkstraFromTo SortFunc yk t cost st = Ok (inr ps) →
  ps = paths st.
Proof.
  unfold iteration. intros H.
  destruct (indexZ _ _) as [prev| |]; try done. simpl in H.
  destruct (spurLoop _ _ _ _ _ _ _ _ _) as [pot'| |]; try done. simpl in H.
  destruct (length pot' =? 0)%nat; [by injection H as <-|].
  destruct (index _ 0) as [best| |]; try done. simpl in H.
  destruct (_ || _); [by injection H as <-|done].
Qed.

Lemma iteration_struct st r :
  structInv yk s t st →
  iteration DijkstraFromTo SortFunc yk t cost st = Ok r →
  match r with
  | inl st' =>
      structInv yk s t st'
      ∧ ∃ best prev pot' rest,
          last (paths st) = Some prev
          ∧ spurLoop DijkstraFromTo yk t cost (paths st) prev
              (length prev - 1) 0 (pot st) = Ok pot'
          ∧ SortFunc pot' = best :: rest
          ∧ candidateOk yk s t best
          ∧ fgt (yenShortest.weight best) cost = false
          ∧ paths st' = paths st ++ [yenShortest.path best]
          ∧ pot st' = rest
  | inr ps => ps = paths st
  end.
Proof.
  intros (Hi & Hne & Hpaths & Hpot & Hnd) H. unfold iteration in H.
  destruct (indexZ (paths st) (i st - 1)) as [prev| |] eqn:Hprev; try done.
  simpl in H. apply indexZ_last in Hprev; [|done].
  pose proof (last_elem_of _ _ Hprev) as Hin.
  destruct (spurLoop _ _ _ _ _ _ _ _ _) as [pot'| |] eqn:Hloop; try done.
  simpl in H.
  destruct (length pot' =? 0)%nat; [by injection H as <-|].
  destruct (index (SortFunc pot') 0) as [best| |] eqn:Hbest; try done.
  simpl in H.
  destruct (_ || _) eqn:Hstop; [by injection H as <-|].
  injection H as <-. apply orb_false_iff in Hstop as [_ Hcost].
  apply index_Ok in Hbest.
  destruct (SortFunc pot') as [|best' rest] eqn:Hsort; [done|].
  injection Hbest as ->.
  assert (2 ≤ length prev)%nat as Hlen.
  { rewrite Forall_forall in Hpaths. by destruct (Hpaths _ Hin) as (_ & ?). }
  pose proof Hloop as Hloop'.
  apply spurLoop_struct in Hloop' as (Hpot' & Hnd' & _);
    [|done|done|lia|done|done].
  pose proof (permutes pot') as Hperm. rewrite Hsort in Hperm.
  rewrite <- Hperm in Hpot', Hnd'.
  apply Forall_cons in Hpot' as [Hbest Hrest].
  split.
  - split_and!; simpl.
    + rewrite length_app. simpl. lia.
    + by destruct (paths st).
    + apply Forall_app. split; [done|]. apply Forall_singleton.
      by destruct Hbest as (? & ?).
    + done.
    + by rewrite <- app_assoc.
  - by exists best, prev, pot', rest.
Qed.

Lemma loop_invariant (P : state → Prop) fuel k st ps :
  (∀ st st', P st →
     iteration DijkstraFromTo SortFunc yk t cost st = Ok (inl st') → P st') →
  P st →
  loop DijkstraFromTo SortFunc fuel yk k t cost st = Ok ps →
  ∃ st', P st' ∧ ps = paths st'.
Proof.
  intros Hstep. revert st.
  induction fuel as [|fuel IH]; intros st Hinv H; simpl in H.
  - destruct (_ || _); [done|]. injection H as <-. eauto.
  - destruct (_ || _); [|injection H as <-; eauto].
    destruct (iteration _ _ _ _ _ st) as [[st'|ps']| |] eqn:Hit; try done;
      simpl in H.
    + eauto.
    + injection H as <-. exists st. split; [done|].
      by apply iteration_break.
Qed.

End Structure.

(** ** Loopless, distinct and bounded results *)

Section Results.

Variable DijkstraFromTo : Z → Z → yenKSPAdjuster → result (list Z * float64).
Variable SortFunc : list yenShortest.t → list yenShortest.t.
Variable UniformCost : graph.Graph → Weighting.
Hypothesis sound : oracleSound DijkstraFromTo.
Hypothesis permutes : sortPermutes SortFunc.

Local Abbreviation Yen :=
  (YenKShortestPaths DijkstraFromTo SortFunc UniformCost) (only parsing).
Local Abbreviation yk0 := (newAdjuster UniformCost) (only parsing).

Lemma reaches_invariant (P : state → Prop) yk k t cost st st' :
  (∀ st st', P st →
     iteration DijkstraFromTo SortFunc yk t cost st = Ok (inl st') → P st') →
  P st → reaches DijkstraFromTo SortFunc yk k t cost st st' → P st'.
Proof. intros Hstep Hst Hr. induction Hr; eauto. Qed.

Lemma first_path g s t p w :
  DijkstraFromTo s t (yk0 g) = Ok (p, w) → p ≠ [] →
  looplessWalk (yk0 g) s t p ∧ w = pathWeight (weight (yk0 g)) p.
Proof.
  intros HD Hp. destruct (sound _ _ _ _ _ HD) as [[-> _]|(? & ? & ?)]; done.
Qed.

Lemma init_struct g s t p w :
  DijkstraFromTo s t (yk0 g) = Ok (p, w) → (2 ≤ length p)%nat →
  structInv (yk0 g) s t {| paths := [p]; pot := []; i := 1 |}.
Proof.
  intros HD Hlen. destruct (first_path g s t p w HD) as [Hwalk _].
  { intros ->. simpl in Hlen. lia. }
  split_and!; simpl; try done.
  - by apply Forall_singleton.
  - apply NoDup_singleton.
Qed.

Lemma Yen_cases fuel g k cost s t ps :
  Yen fuel g k cost s t = Ok ps →
  ∃ p w, DijkstraFromTo s t (yk0 g) = Ok (p, w)
    ∧ ((p = [] ∧ ps = [])
       ∨ (length p = 1%nat ∧ ps = [p])
       ∨ ((2 ≤ length p)%nat
          ∧ loop DijkstraFromTo SortFunc fuel (yk0 g) k t (fadd cost w)
              {| paths := [p]; pot := []; i := 1 |} = Ok ps)).
Proof.
  unfold YenKShortestPaths. intros H.
  destruct (DijkstraFromTo s t (yk0 g)) as [[p w]| |]; try done.
  simpl in H. exists p, w. split; [done|].
  destruct p as [|a [|b p]].
  - left. by injection H as <-.
  - right; left. by injection H as <-.
  - right; right. split; [simpl; lia|done].
Qed.

Lemma Yen_struct fuel g k cost s t ps :
  Yen fuel g k cost s t = Ok ps →
  Forall (looplessWalk (yk0 g) s t) ps ∧ NoDup ps.
Proof.
  intros (p & w & HD & Hcase)%Yen_cases.
  destruct Hcase as [[-> ->]|[[Hlen ->]|[Hlen Hloop]]].
  - split; [done|apply NoDup_nil_2].
  - split; [|apply NoDup_singleton]. apply Forall_singleton.
    eapply first_path; [done|]. by intros ->.
  - apply (loop_invariant _ _ _ _ _ (structInv (yk0 g) s t))
      in Hloop as (st' & (_ & _ & Hpaths & _ & Hnd) & ->).
    + split.
      * eapply Forall_impl; [done|]. by intros q [? _].
      * by apply NoDup_app in Hnd as [? _].
    + intros st st' Hst Hit.
      by apply (iteration_struct _ _ sound permutes _ s) in Hit as [? _].
    + by eapply init_struct.
Qed.

(** C6. When the search keeps its contract ([oracleSound]: what it returns
    is a loopless walk of the view it was given) and the sort only
    rearranges the pool, every returned path is loopless and is a walk of
    the graph from the source to the target: the nodes of the root before
    the spur are masked during the spur query, and the candidate is that
    part of the root followed by the path the search returns. *)
Theorem returned_paths_are_loopless (fuel : nat) (g : graph.Graph) (k : Z)
    (cost : float64) (s t : Z) (ps : list (list Z)) :
  Yen fuel g k cost s t = Ok ps →
  Forall (λ p, NoDup p ∧ walk (yk0 g) s t p) ps.
Proof.
  intros [H _]%Yen_struct. eapply Forall_impl; [done|].
  by intros p [? ?].
Qed.

(** C5. When the search keeps its contract ([oracleSound]) and the sort
    only rearranges the pool: in every state the outer loop passes through,
    the accepted paths are pairwise distinct and so are the paths of the
    candidate pool; the pool stays free of duplicates after each spur query
    of the inner loop; and the returned list has no duplicate. *)
Theorem no_duplicate_paths (g : graph.Graph) (k : Z) (cost : float64)
    (s t : Z) (shortest : list Z) (w : float64) :
  DijkstraFromTo s t (yk0 g) = Ok (shortest, w) →
  let st0 := {| paths := [shortest]; pot := []; i := 1 |} in
  let cost' := fadd cost w in
  (∀ st, (2 ≤ length shortest)%nat →
     reaches DijkstraFromTo SortFunc (yk0 g) k t cost' st0 st →
     NoDup (paths st) ∧ NoDup (yenShortest.path <$> pot st)
     ∧ ∀ prev m pot',
         last (paths st) = Some prev → (m < length prev)%nat →
         spurLoop DijkstraFromTo (yk0 g) t cost' (paths st) prev m 0 (pot st)
           = Ok pot' →
         NoDup (yenShortest.path <$> pot'))
  ∧ (∀ fuel ps, Yen fuel g k cost s t = Ok ps → NoDup ps).
Proof.
  intros HD st0 cost'. split.
  - intros st Hlen Hr.
    apply (reaches_invariant (structInv (yk0 g) s t)) in Hr.
    + destruct Hr as (_ & _ & Hpaths & Hpot & Hnd).
      pose proof Hnd as (Hnd1 & _ & Hnd2)%NoDup_app.
      split_and!; try done.
      intros prev m pot' Hprev Hm Hloop.
      apply (spurLoop_struct _ _ sound permutes _ s) in Hloop as (_ & Hnd' & _);
        try done.
      * by apply NoDup_app in Hnd' as (_ & _ & ?).
      * by apply last_elem_of.
    + intros st1 st2 Hst Hit.
      by apply (iteration_struct _ _ sound permutes _ s) in Hit as [? _].
    + by eapply init_struct.
  - intros fuel ps H. by apply Yen_struct in H as [_ ?].
Qed.

End Results.

Lemma chain_app_inv yk l1 x l2 :
  chain yk (l1 ++ x :: l2) → chain yk (l1 ++ [x]) ∧ chain yk (x :: l2).
Proof.
  intros H. split.
  - apply (chain_take _ _ (S (length l1))) in H.
    rewrite take_app_ge in H by lia.
    by replace (S (length l1) - length l1)%nat with 1%nat in H by lia.
  - apply (chain_drop _ _ (length l1)) in H. by rewrite drop_app_length in H.
Qed.

(** ** Sums of nonnegative weights *)

Lemma chain_reset yk p : chain yk p → chain (reset yk) p.
Proof.
  apply chain_mono. intros a b. by apply From_subseteq_reset.
Qed.

Lemma sumWeights_nonneg yk acc p :
  nonnegative yk → chain (reset yk) p → nonnegFloat acc →
  nonnegFloat (sumWeights (weight yk) acc p).
Proof.
  intros Hnn. revert acc. induction p as [|a p IH]; intros acc Hc Hacc.
  { done. }
  destruct p as [|b p]; [done|]. destruct Hc as [Hab Hc].
  rewrite From_reset in Hab. destruct (Hnn _ _ Hab) as (z & Hw & Hz).
  rewrite sumWeights_cons, Hw. apply IH; [done|]. by apply fadd_nonneg.
Qed.

Lemma pathWeight_nonneg yk p :
  nonnegative yk → chain (reset yk) p →
  nonnegFloat (pathWeight (weight yk) p).
Proof.
  intros Hnn Hc. apply sumWeights_nonneg; [done|done|].
  apply nonnegFloat_zero.
Qed.

Lemma sumWeights_ge yk acc p :
  nonnegative yk → chain (reset yk) p → nonnegFloat acc →
  fle acc (sumWeights (weight yk) acc p).
Proof.
  intros Hnn. revert acc. induction p as [|a p IH]; intros acc Hc Hacc.
  { by apply fle_refl, nonnegFloat_not_NaN. }
  destruct p as [|b p]; [by apply fle_refl, nonnegFloat_not_NaN|].
  destruct Hc as [Hab Hc].
  rewrite From_reset in Hab. destruct (Hnn _ _ Hab) as (z & Hw & Hz).
  rewrite sumWeights_cons, Hw.
  eapply fle_trans; [by apply (fadd_ge acc z)|].
  apply IH; [done|]. by apply fadd_nonneg.
Qed.

Lemma sumWeights_mono yk acc acc' p :
  nonnegative yk → chain (reset yk) p →
  nonnegFloat acc → nonnegFloat acc' → fle acc acc' →
  fle (sumWeights (weight yk) acc p) (sumWeights (weight yk) acc' p).
Proof.
  intros Hnn. revert acc acc'.
  induction p as [|a p IH]; intros acc acc' Hc Hacc Hacc' Hle; [done|].
  destruct p as [|b p]; [done|]. destruct Hc as [Hab Hc].
  rewrite From_reset in Hab. destruct (Hnn _ _ Hab) as (z & Hw & Hz).
  rewrite !sumWeights_cons, Hw.
  apply IH; [done|by apply fadd_nonneg|by apply fadd_nonneg|].
  by apply fadd_mono.
Qed.

(** ** The reference instances meet the contracts *)

Module ReferenceFacts.

Lemma simplePaths_sound yk t fuel seen u p :
  p ∈ Reference.simplePaths yk t fuel seen u →
  walk yk u t p ∧ NoDup p ∧ ∀ x, x ∈ tail p → x ∉ seen.
Proof.
  revert seen u p. induction fuel as [|fuel IH]; intros seen u p; simpl.
  - case_decide as Hut; [|by intros ?%elem_of_nil].
    intros ->%list_elem_of_singleton. subst.
    split_and!; try done; [apply NoDup_singleton|].
    by intros x ?%elem_of_nil.
  - case_decide as Hut.
    { intros ->%list_elem_of_singleton. subst.
      split_and!; try done; [apply NoDup_singleton|].
      by intros x ?%elem_of_nil. }
    intros (v & Hp & Hv)%list_elem_of_bind.
    case_decide as Hseen; [by apply elem_of_nil in Hp|].
    apply list_elem_of_fmap in Hp as (p' & -> & Hp').
    apply IH in Hp' as ((Hh & Hl & Hc) & Hnd & Htail).
    destruct p' as [|v' p']; [done|]. injection Hh as ->.
    split_and!.
    + done.
    + apply NoDup_cons. split; [|done].
      intros [->|Hin]%elem_of_cons; [apply Hseen; left|].
      apply (Htail u); [done|left].
    + simpl. intros x [->|Hin]%elem_of_cons.
      * intros ?. apply Hseen. by right.
      * intros ?. apply (Htail x); [done|by right].
Qed.

Lemma simplePaths_complete yk t fuel seen u q :
  walk yk u t q → NoDup q → (∀ x, x ∈ tail q → x ∉ seen) →
  (length q ≤ S fuel)%nat →
  q ∈ Reference.simplePaths yk t fuel seen u.
Proof.
  revert seen u q. induction fuel as [|fuel IH];
    intros seen u q (Hh & Hl & Hc) Hnd Htail Hlen.
  - destruct q as [|a [|b q]]; simpl in *; try done; try lia.
    injection Hh as ->. injection Hl as ->.
    rewrite decide_True by done. by left.
  - destruct q as [|a q]; [done|]. injection Hh as ->. simpl.
    apply NoDup_cons in Hnd as [Hu Hnd].
    case_decide as Hut.
    { subst. destruct q as [|b q]; [by left|].
      exfalso. apply Hu. rewrite last_cons_cons in Hl.
      by apply last_elem_of. }
    destruct q as [|v q]; [by injection Hl|].
    destruct Hc as [Hv Hc].
    apply list_elem_of_bind. exists v. split; [|done].
    rewrite decide_False.
    2:{ intros [->|Hin]%elem_of_cons; [apply Hu; left|].
        apply (Htail v); [left|done]. }
    apply list_elem_of_fmap_2. apply IH.
    + split_and!; done.
    + done.
    + intros x Hx [->|Hin]%elem_of_cons.
      * apply Hu. right. by destruct q; [apply elem_of_nil in Hx|].
      * apply (Htail x); [|done]. right.
        by destruct q; [apply elem_of_nil in Hx|].
    + simpl in *. lia.
Qed.

Lemma cheapest_elem w best ps :
  let r := Reference.cheapest w best ps in
  r = best ∨ ∃ p, p ∈ ps ∧ r = (p, pathWeight w p).
Proof.
  revert best. induction ps as [|p ps IH]; intros best; simpl; [by left|].
  destruct (fgt best.2 (pathWeight w p)).
  - right. destruct (IH (p, pathWeight w p)) as [->|(p' & ? & ->)].
    + exists p. split; [left|done].
    + exists p'. split; [by right|done].
  - destruct (IH best) as [->|(p' & ? & ->)]; [by left|].
    right. exists p'. split; [by right|done].
Qed.

Lemma cheapest_le w best ps :
  isNaN best.2 = false →
  (∀ p, p ∈ ps → isNaN (pathWeight w p) = false) →
  let r := Reference.cheapest w best ps in
  fle r.2 best.2 ∧ ∀ p, p ∈ ps → fle r.2 (pathWeight w p).
Proof.
  revert best. induction ps as [|p ps IH]; intros best Hbest Hps; simpl.
  - split; [by apply fle_refl|by intros p ?%elem_of_nil].
  - assert (isNaN (pathWeight w p) = false) as Hp by (apply Hps; left).
    assert (∀ p', p' ∈ ps → isNaN (pathWeight w p') = false) as Hps'
      by (intros p' ?; apply Hps; by right).
    destruct (fgt best.2 (pathWeight w p)) eqn:Hgt.
    + destruct (IH (p, pathWeight w p) Hp Hps') as (Hle & Hall).
      simpl in *. split.
      * eapply fle_trans; [done|]. by apply fgt_true_fle.
      * intros p' [->|?]%elem_of_cons; [done|by apply Hall].
    + destruct (IH best Hbest Hps') as (Hle & Hall).
      split; [done|].
      intros p' [->|?]%elem_of_cons; [|by apply Hall].
      eapply fle_trans; [done|]. by apply fgt_false_fle.
Qed.

Lemma walk_tail_nodes yk u t q x :
  wellFormed (Graph yk) → walk yk u t q → x ∈ tail q →
  x ∈ graph.Nodes (Graph yk).
Proof.
  intros Hwf (_ & _ & Hc) Hx. destruct q as [|a q]; [by apply elem_of_nil in Hx|].
  simpl in Hx. apply list_elem_of_lookup in Hx as [j Hj].
  rewrite chain_lookup in Hc.
  destruct (lookup_lt_is_Some_2 (a :: q) j) as [y Hy].
  { apply lookup_lt_Some in Hj. simpl. lia. }
  specialize (Hc j y x Hy Hj).
  apply elem_of_From in Hc as (_ & Hc & _). by apply Hwf in Hc as [_ ?].
Qed.

Lemma walk_length_bound yk u t q :
  wellFormed (Graph yk) → walk yk u t q → NoDup q →
  (length q ≤ S (length (graph.Nodes (Graph yk))))%nat.
Proof.
  intros Hwf Hwalk Hnd. destruct q as [|a q]; simpl; [lia|].
  apply le_n_S. apply NoDup_cons in Hnd as [_ Hnd].
  apply submseteq_length, NoDup_submseteq; [done|].
  intros x Hx. by eapply walk_tail_nodes.
Qed.

Theorem oracle_sound : oracleSound Reference.DijkstraFromTo.
Proof.
  intros u t yk p w H. unfold Reference.DijkstraFromTo in H.
  destruct (existsb _ _); [done|]. injection H as H.
  pose proof (cheapest_elem (weight yk) ([], PInf)
    (Reference.simplePaths yk t (length (graph.Nodes (Graph yk))) [] u))
    as [Hr|(q & Hq & Hr)]; simpl in *;
    rewrite H in Hr; injection Hr as -> ->.
  - by left.
  - right. by apply simplePaths_sound in Hq as (? & ? & _).
Qed.

Theorem oracle_optimal : oracleOptimal Reference.DijkstraFromTo.
Proof.
  intros u t yk p w Hwf Hnn _ H q Hq Hnd.
  unfold Reference.DijkstraFromTo in H.
  destruct (existsb _ _); [done|]. injection H as H.
  pose proof (cheapest_le (weight yk) ([], PInf)
    (Reference.simplePaths yk t (length (graph.Nodes (Graph yk))) [] u))
    as (_ & Hall); simpl in *.
  { done. }
  { intros p' (Hp' & _)%simplePaths_sound.
    apply nonnegFloat_not_NaN, pathWeight_nonneg; [done|].
    apply chain_reset. by destruct Hp' as (_ & _ & ?). }
  rewrite H in Hall. apply Hall, simplePaths_complete; try done.
  - by intros x _ ?%elem_of_nil.
  - by eapply walk_length_bound.
Qed.

Theorem oracle_total : oracleTotal Reference.DijkstraFromTo.
Proof.
  intros u t yk _ Hnn. unfold Reference.DijkstraFromTo.
  destruct (existsb _ _) eqn:Hbad; [|eauto]. exfalso.
  apply existsb_exists in Hbad as (a & _ & Hbad).
  apply existsb_exists in Hbad as (b & Hb & Hbad).
  apply list_elem_of_In, elem_of_From in Hb as (_ & Hb & _).
  destruct (Hnn _ _ Hb) as (z & Hz & ?).
  unfold Reference.badEdge, Weight in Hbad. rewrite Hz in Hbad.
  apply Z.ltb_lt in Hbad. lia.
Qed.

#[local] Instance byWeight_trans : Transitive byWeight.
Proof.
  intros [? a] [? b] [? c]. unfold byWeight, Compare. simpl.
  destruct a, b, c; simpl; try lia; compare_cases.
Qed.

#[local] Instance byWeight_total : Total byWeight.
Proof.
  intros [? a] [? b]. unfold byWeight, Compare. simpl.
  destruct a, b; simpl; try lia; compare_cases.
Qed.

Theorem sort_permutes : sortPermutes Reference.SortFunc.
Proof. intros l. apply merge_sort_Permutation. Qed.

Theorem sort_sorts : sortSorts Reference.SortFunc.
Proof. intros l. apply (StronglySorted_merge_sort byWeight). Qed.

End ReferenceFacts.

(** ** The pool covers every path not yet accepted *)

Lemma exact_nonnegative yk : exactWeights yk → nonnegative yk.
Proof.
  intros (e & B & He & _ & _ & Hw) u v Huv.
  destruct (Hw u v Huv) as (m & -> & Hm). exists (m * 2 ^ e).
  split; [done|]. pose proof (pow2_pos e ltac:(lia)). nia.
Qed.

Lemma chain_elem_nodes yk p x :
  wellFormed (Graph yk) → chain (reset yk) p → (2 ≤ length p)%nat →
  x ∈ p → x ∈ graph.Nodes (Graph yk).
Proof.
  intros Hwf Hc Hlen [[|j] Hj]%list_elem_of_lookup.
  - destruct p as [|a [|b p]]; simpl in Hlen; try lia.
    injection Hj as ->. destruct Hc as [Hab _].
    rewrite From_reset in Hab. by apply Hwf in Hab as [? _].
  - rewrite chain_lookup in Hc.
    destruct (lookup_lt_is_Some_2 p j) as [a Ha].
    { apply lookup_lt_Some in Hj. lia. }
    specialize (Hc j a x Ha Hj). rewrite From_reset in Hc.
    by apply Hwf in Hc as [_ ?].
Qed.

Lemma chain_length_bound yk p :
  wellFormed (Graph yk) → chain (reset yk) p → NoDup p →
  (length p - 1 ≤ length (graph.Nodes (Graph yk)))%nat.
Proof.
  intros Hwf Hc Hnd. destruct (decide (2 ≤ length p)%nat); [|lia].
  etrans; [apply Nat.le_sub_l|].
  apply submseteq_length, NoDup_submseteq; [done|].
  intros x Hx. by eapply chain_elem_nodes.
Qed.

Lemma sumWeights_exact yk e B p ma :
  0 ≤ e ≤ 2045 →
  (∀ u v, v ∈ graph.From (Graph yk) u →
     ∃ m, weight yk u v = (Fin (m * 2 ^ e), true) ∧ 0 ≤ m ≤ B) →
  chain (reset yk) p → 0 ≤ ma →
  ma + B * Z.of_nat (length p - 1) < 2 ^ 53 →
  ∃ mz, zsum (weight yk) p = mz * 2 ^ e
    ∧ 0 ≤ mz ≤ B * Z.of_nat (length p - 1)
    ∧ sumWeights (weight yk) (Fin (ma * 2 ^ e)) p = Fin ((ma + mz) * 2 ^ e).
Proof.
  intros He Hw. revert ma.
  induction p as [|a p IH]; intros ma Hc Hma Hlt.
  { exists 0. simpl in *. split_and!; try done; try lia.
    by rewrite Z.add_0_r. }
  destruct p as [|b p].
  { exists 0. simpl in *. split_and!; try done; try lia.
    by rewrite Z.add_0_r. }
  destruct Hc as [Hab Hc]. rewrite From_reset in Hab.
  destruct (Hw _ _ Hab) as (m & Hm & Hmb).
  cbn [length] in Hlt.
  replace (S (S (length p)) - 1)%nat with (S (length p)) in * by lia.
  destruct (IH (ma + m)) as (mz & Hz & Hzb & Hsum); [done|lia| |].
  { cbn [length]. replace (S (length p) - 1)%nat with (length p) by lia.
    lia. }
  cbn [length] in Hzb.
  replace (S (length p) - 1)%nat with (length p) in Hzb by lia.
  exists (m + mz). split_and!.
  - change (zsum (weight yk) (a :: b :: p))
      with (zval (weight yk a b).1 + zsum (weight yk) (b :: p)).
    rewrite Hm, Hz. simpl. lia.
  - lia.
  - cbn [length]. replace (S (S (length p)) - 1)%nat with (S (length p)) by lia.
    lia.
  - rewrite sumWeights_cons, Hm. cbn [fst].
    rewrite fadd_exact by lia. rewrite Hsum. f_equal. lia.
Qed.

Section Exact.

Variable yk : yenKSPAdjuster.
Hypothesis wf : wellFormed (Graph yk).
Hypothesis exact : exactWeights yk.

Lemma zsum_grid p :
  chain (reset yk) p → NoDup p →
  ∃ e mz, 0 ≤ e ≤ 2045 ∧ zsum (weight yk) p = mz * 2 ^ e ∧ 0 ≤ mz < 2 ^ 53
    ∧ pathWeight (weight yk) p = Fin (mz * 2 ^ e).
Proof.
  intros Hc Hnd. destruct exact as (e & B & He & HB & HN & Hw).
  pose proof (chain_length_bound yk p wf Hc Hnd) as Hlen.
  destruct (sumWeights_exact yk e B p 0 He Hw Hc) as (mz & Hz & Hzb & Hsum);
    [done|nia|].
  exists e, mz. split_and!; [lia|lia|done|lia|nia|].
  unfold pathWeight. change (Fin 0) with (Fin (0 * 2 ^ e)). by rewrite Hsum.
Qed.

Lemma pathWeight_exact p :
  chain (reset yk) p → NoDup p →
  pathWeight (weight yk) p = Fin (zsum (weight yk) p).
Proof.
  intros Hc Hnd.
  destruct (zsum_grid p Hc Hnd) as (e & mz & _ & -> & _ & ->). done.
Qed.

Lemma zsum_nonneg p : chain (reset yk) p → 0 ≤ zsum (weight yk) p.
Proof.
  destruct exact as (e & B & He & HB & HN & Hw).
  induction p as [|a p IH]; intros Hc; [done|].
  destruct p as [|b p]; [done|]. destruct Hc as [Hab Hc].
  rewrite From_reset in Hab. destruct (Hw _ _ Hab) as (m & Hm & Hmb).
  change (zsum (weight yk) (a :: b :: p))
    with (zval (weight yk a b).1 + zsum (weight yk) (b :: p)).
  rewrite Hm. cbn [fst zval]. pose proof (pow2_pos e ltac:(lia)).
  specialize (IH Hc). nia.
Qed.

Lemma pathWeight_app_exact l1 x l2 :
  chain (reset yk) (l1 ++ x :: l2) → NoDup (l1 ++ x :: l2) →
  fadd (pathWeight (weight yk) (x :: l2)) (pathWeight (weight yk) (l1 ++ [x]))
  = pathWeight (weight yk) (l1 ++ x :: l2).
Proof.
  intros Hc Hnd. destruct exact as (e & B & He & HB & HN & Hw).
  pose proof (chain_length_bound yk _ wf Hc Hnd) as Hlen.
  pose proof Hc as [Hc1 Hc2]%chain_app_inv.
  rewrite length_app in Hlen. cbn [length] in Hlen.
  destruct (sumWeights_exact yk e B (l1 ++ [x]) 0 He Hw Hc1)
    as (m1 & Hz1 & Hb1 & Hs1); [done|rewrite length_app; simpl; nia|].
  destruct (sumWeights_exact yk e B (x :: l2) 0 He Hw Hc2)
    as (m2 & Hz2 & Hb2 & Hs2); [done|simpl; nia|].
  rewrite length_app in Hb1. cbn [length] in Hb1, Hb2.
  assert (m1 + m2 < 2 ^ 53) as Hlt by nia.
  change (Fin (0 * 2 ^ e)) with (Fin 0) in Hs1, Hs2.
  fold (pathWeight (weight yk) (l1 ++ [x])) in Hs1.
  fold (pathWeight (weight yk) (x :: l2)) in Hs2.
  rewrite Hs1, Hs2, fadd_exact by lia.
  rewrite pathWeight_exact, zsum_app, Hz1, Hz2 by done. f_equal. lia.
Qed.

End Exact.

Lemma deviation_walk yk ykm s t paths prev n spur q :
  spurView yk ykm paths prev n →
  prev !! n = Some spur →
  looplessWalk yk s t q →
  lcp prev q = S n →
  (∀ p, p ∈ paths → (lcp p q ≤ S n)%nat) →
  walk ykm spur t (drop n q).
Proof.
  intros (HG & HW & HN & HE) Hspur ((Hs & Ht & Hc) & Hnd) Hlcp Hmax.
  pose proof (lcp_le_l prev q) as Hlp. pose proof (lcp_le_r prev q) as Hlq.
  assert (q !! n = Some spur) as Hqn by (eapply lcp_lookup; [|done]; lia).
  assert (take n prev = take n q) as Htn by (apply lcp_take_eq; lia).
  assert (take (S n) prev = take (S n) q) as HtSn
    by (apply lcp_take_eq; lia).
  split_and!.
  - by rewrite head_lookup, lookup_drop, Nat.add_0_r.
  - rewrite last_lookup, length_drop, lookup_drop.
    rewrite last_lookup in Ht. rewrite <- Ht. f_equal. lia.
  - apply chain_lookup. intros j a b Ha Hb.
    rewrite lookup_drop in Ha, Hb.
    rewrite chain_lookup in Hc.
    assert (b ∈ From (reset yk) a) as Hab.
    { apply (Hc (n + j)%nat); [done|].
      by replace (S (n + j)) with (n + S j)%nat by lia. }
    rewrite From_reset in Hab.
    assert (∀ m x, q !! (n + m)%nat = Some x → x ∉ visitedNodes ykm)
      as Hfresh.
    { intros m x Hx Hin. apply HN in Hin. rewrite Htn in Hin.
      apply list_elem_of_lookup in Hin as [j' Hj'].
      apply lookup_take_Some in Hj' as [Hj' ?].
      pose proof (NoDup_lookup _ _ _ _ Hnd Hx Hj'). lia. }
    apply elem_of_From. split_and!.
    + by eapply Hfresh.
    + by rewrite HG.
    + apply canWalk_true. split; [by eapply Hfresh|].
      intros (path & Hpath & Hlen & Hsame & Hcase)%HE.
      apply samePrefix_take in Hsame.
      rewrite length_take, Nat.min_l in Hsame by lia.
      assert (path !! n = Some spur) as Hpn.
      { rewrite <- (lookup_take_lt path (S n) n), Hsame by lia.
        by rewrite lookup_take_lt by lia. }
      destruct Hcase as [[Hpa Hpb]|(_ & Hpb & Hpa)].
      * rewrite Hpn in Hpa. injection Hpa as ->.
        pose proof (NoDup_lookup _ _ _ _ Hnd Ha Hqn) as Hj.
        assert (j = O) as -> by lia.
        rewrite Nat.add_1_r in Hb.
        assert (S (S n) ≤ lcp path q)%nat as Hbad.
        { apply lcp_ge.
          - apply lookup_lt_Some in Hpb. lia.
          - apply lookup_lt_Some in Hb. lia.
          - rewrite (take_S_r _ _ _ Hpb), (take_S_r _ _ _ Hb).
            by rewrite Hsame, HtSn. }
        specialize (Hmax _ Hpath). lia.
      * rewrite Hpn in Hpb. injection Hpb as ->.
        pose proof (NoDup_lookup _ _ _ _ Hnd Hb Hqn). lia.
Qed.

Lemma nondecreasing_snoc ws x :
  nondecreasing ws → (∀ y, last ws = Some y → fle y x) →
  nondecreasing (ws ++ [x]).
Proof.
  induction ws as [|a ws IH]; intros Hws Hlast; [done|].
  destruct ws as [|b ws].
  - simpl. split; [|done]. by apply Hlast.
  - destruct Hws as [Hab Hws]. split; [done|].
    apply IH; [done|]. intros y Hy. apply Hlast. by rewrite last_cons_cons.
Qed.

Lemma prefix_same_target (prev q : list Z) t :
  last prev = Some t → last q = Some t → NoDup q →
  lcp prev q = length prev → q = prev.
Proof.
  intros Hp Hq Hnd Hlcp.
  pose proof (take_lcp prev q) as Htake.
  rewrite Hlcp, firstn_all in Htake.
  rewrite <- (take_drop (length prev) q), <- Htake in Hnd, Hq |- *.
  destruct (drop (length prev) q) as [|x rest] eqn:Hdrop.
  - by rewrite app_nil_r.
  - exfalso. apply NoDup_app in Hnd as (_ & Hdisj & _).
    apply (Hdisj t); [by apply last_elem_of|].
    rewrite last_app in Hq.
    destruct (last (x :: rest)) as [y|] eqn:Hy.
    + injection Hq as ->. by apply last_elem_of.
    + by apply last_None in Hy.
Qed.

(** ** The stored weights, when the additions are exact *)

Section Weighed.

Variable DijkstraFromTo : Z → Z → yenKSPAdjuster → result (list Z * float64).
Variable SortFunc : list yenShortest.t → list yenShortest.t.
Hypothesis sound : oracleSound DijkstraFromTo.
Hypothesis permutes : sortPermutes SortFunc.

Variable yk : yenKSPAdjuster.
Variables s t : Z.
Variable cost : float64.
Hypothesis wf : wellFormed (Graph yk).
Hypothesis exact : exactWeights yk.

Lemma spurBody_weighed paths prev pot n pot' :
  Forall (acceptedOk yk s t) paths → prev ∈ paths →
  (S n < length prev)%nat →
  Forall (weighed yk) pot →
  spurBody DijkstraFromTo yk t cost paths prev pot n = Ok pot' →
  Forall (weighed yk) pot'.
Proof.
  intros Hpaths Hprev Hn Hpot H.
  apply spurBody_inv in H
    as (spur & ykm & spath & w & Hspur & Hview & HD & Hcase); [|done].
  destruct Hcase as [[_ ->]|(_ & Hinf & ->)]; [done|].
  rewrite Forall_forall in Hpaths.
  destruct (Hpaths _ Hprev) as ((Hwalk & Hndp) & _).
  destruct (spur_candidate _ sound _ _ _ _ _ _ _ _ _ _ Hview Hwalk Hndp Hn
              Hspur HD Hinf)
    as ((Hsh & _ & _) & _ & Hw & _ & (_ & _ & Hcc) & Hcnd & _ & _).
  match goal with
  | |- Forall _ (addPot pot ?c ?x) =>
      destruct (addPot_spec pot c x) as [[-> _]|[-> _]]; [done|]
  end.
  apply Forall_app. split; [done|]. apply Forall_singleton.
  unfold weighed. simpl.
  destruct (1 <? S n)%nat eqn:Hroot; [|by destruct n].
  destruct spath as [|x rest]; [done|]. injection Hsh as ->.
  rewrite Hw, (take_S_r _ _ _ Hspur).
  by apply pathWeight_app_exact.
Qed.

Lemma spurLoop_weighed paths prev count n pot pot' :
  Forall (acceptedOk yk s t) paths → prev ∈ paths →
  (n + count < length prev)%nat →
  Forall (weighed yk) pot →
  spurLoop DijkstraFromTo yk t cost paths prev count n pot = Ok pot' →
  Forall (weighed yk) pot'.
Proof.
  intros Hpaths Hprev. revert n pot.
  induction count as [|count IH]; intros n pot Hn Hpot H; simpl in H.
  - by injection H as <-.
  - destruct (spurBody _ _ _ _ _ _ _ _) as [pot1| |] eqn:Hbody; try done.
    simpl in H.
    apply spurBody_weighed in Hbody; [|done|done|lia|done].
    apply IH in H; [done|lia|done].
Qed.

Lemma iteration_weighed st st' :
  structInv yk s t st → Forall (weighed yk) (pot st) →
  iteration DijkstraFromTo SortFunc yk t cost st = Ok (inl st') →
  Forall (weighed yk) (pot st')
  ∧ ∃ best, paths st' = paths st ++ [yenShortest.path best]
      ∧ weighed yk best ∧ fgt (yenShortest.weight best) cost = false.
Proof.
  intros Hst Hpot Hit.
  pose proof Hst as (_ & _ & Hpaths & _ & _).
  apply (iteration_struct _ _ sound permutes _ s) in Hit
    as (Hst' & best & prev & pot' & rest
        & Hlast & Hloop & Hsort & Hbest & Hle & Hpaths' & Hpot');
    [|done].
  pose proof (last_elem_of _ _ Hlast) as Hprev.
  assert (acceptedOk yk s t prev) as (_ & Hprevlen)
    by (by eapply Forall_forall in Hpaths).
  apply spurLoop_weighed in Hloop; [|done|done|lia|done].
  rewrite <- (permutes pot'), Hsort in Hloop.
  apply Forall_cons in Hloop as [? ?].
  split; [by rewrite Hpot'|]. by exists best.
Qed.

End Weighed.

Section Optimality.

Variable DijkstraFromTo : Z → Z → yenKSPAdjuster → result (list Z * float64).
Variable SortFunc : list yenShortest.t → list yenShortest.t.
Hypothesis sound : oracleSound DijkstraFromTo.
Hypothesis optimal : oracleOptimal DijkstraFromTo.
Hypothesis permutes : sortPermutes SortFunc.
Hypothesis sorts : sortSorts SortFunc.

Variable yk : yenKSPAdjuster.
Variables s t : Z.
Variable cost : float64.
Hypothesis wf : wellFormed (Graph yk).
Hypothesis exact : exactWeights yk.

Lemma spurBody_coverage paths prev pot n pot' :
  Forall (acceptedOk yk s t) paths → prev ∈ paths →
  (S n < length prev)%nat →
  Forall (candidateOk yk s t) pot →
  Forall (weighed yk) pot →
  NoDup (paths ++ (yenShortest.path <$> pot)) →
  coverage yk s t cost paths pot prev n →
  spurBody DijkstraFromTo yk t cost paths prev pot n = Ok pot' →
  coverage yk s t cost paths pot' prev (S n).
Proof.
  intros Hpaths Hprev Hn Hpot Hwpot Hnd Hcov Hbody q Hq Hnew.
  pose proof (exact_nonnegative yk exact) as nonneg.
  pose proof Hbody as Hstruct.
  apply (spurBody_struct _ sound _ s) in Hstruct as (Hpot' & _ & Hsub);
    try done.
  pose proof Hbody as Hwpot'.
  apply (spurBody_weighed _ sound _ s) in Hwpot'; try done.
  destruct (Hcov q Hq Hnew) as [Hpruned|[(c & Hc & Hle & Hlcp)|[Hmax Hdev]]].
  { by left. }
  { right; left. exists c. split_and!; try done. by apply Hsub. }
  destruct (decide (S n < lcp prev q)%nat) as [|Hnow].
  { right; right. done. }
  assert (lcp prev q = S n) as Hlcp by lia. clear Hdev Hnow.
  apply spurBody_inv in Hbody
    as (spur & ykm & spath & w & Hspur & Hview & HD & Hcase); [|done].
  rewrite Forall_forall in Hpaths.
  destruct (Hpaths _ Hprev) as ((Hwalk & Hndp) & _).
  assert (walk ykm spur t (drop n q)) as Hdq.
  { eapply deviation_walk; try done. intros p Hp. rewrite <- Hlcp. eauto. }
  assert (spur ≠ t) as Hne by eauto using spur_not_target.
  pose proof (walk_length_2 _ _ _ _ Hdq Hne) as Hlen.
  rewrite length_drop in Hlen.
  pose proof (lcp_le_l prev q) as Hlp.
  assert (q !! n = Some spur) as Hqn by (eapply lcp_lookup; [|done]; lia).
  assert (take (S n) prev = take (S n) q) as HtSn
    by (apply lcp_take_eq; lia).
  destruct Hq as ((Hs & Ht & Hc) & Hndq).
  destruct Hview as (HG & HW & HN & HE).
  assert (fle w (pathWeight (weight yk) (drop n q))) as Hopt.
  { rewrite <- HW. eapply optimal; try done.
    - by rewrite HG.
    - intros a b Hab. rewrite HG in Hab. rewrite HW. by apply nonneg.
    - destruct (lookup_lt_is_Some_2 q (S n)) as [b Hb]; [lia|].
      rewrite chain_lookup in Hc. specialize (Hc n spur b Hqn Hb).
      rewrite From_reset in Hc. rewrite HG. by apply wf in Hc as [? _].
    - apply (sublist_NoDup _ q); [done|apply sublist_drop]. }
  assert (zsum (weight yk) q
          = zsum (weight yk) (take (S n) q) + zsum (weight yk) (drop n q))
    as Hsplit.
  { rewrite <- (take_drop_middle q n spur Hqn) at 1.
    by rewrite zsum_app, <- (take_S_r _ _ _ Hqn), (drop_S _ _ _ Hqn). }
  pose proof (zsum_nonneg yk exact (take (S n) q) (chain_take _ _ _ Hc))
    as Hr0.
  pose proof (pathWeight_exact yk wf exact q Hc Hndq) as Hpq.
  rewrite (pathWeight_exact yk wf exact (drop n q)) in Hopt;
    [|by apply chain_drop|apply (sublist_NoDup _ q); [done|apply sublist_drop]].
  destruct Hcase as [[Hskip Heq]|(Hgt & Hinf & Heq)].
  { left. rewrite Hpq, Hsplit. apply orb_true_iff in Hskip as [Hgt|Hinf].
    - clear -Hgt Hopt Hr0. destruct w, cost; float_cases.
    - clear -Hinf Hopt. destruct w; float_cases. }
  right; left.
  destruct (spur_candidate _ sound yk ykm s t paths prev n spur spath w)
    as ((Hsh & _ & Hsc) & Hsnd & Hw & _ & (_ & _ & Hcc) & Hcnd & Hctake & _);
    try done.
  set (c := take n prev ++ spath) in *.
  assert (∃ c', c' ∈ pot' ∧ yenShortest.path c' = c) as (c' & Hc' & Hpc').
  { rewrite Heq.
    match goal with
    | |- ∃ c', c' ∈ addPot pot c ?x ∧ _ =>
        destruct (addPot_spec pot c x) as [[-> Hin]|[-> _]]
    end.
    - apply list_elem_of_fmap in Hin as (c' & ? & ?). eauto.
    - eexists. split; [apply elem_of_app; right; left|done]. }
  exists c'. split_and!; [done| |].
  - rewrite Forall_forall in Hwpot'.
    rewrite (Hwpot' _ Hc'), Hpc', Hpq, Hsplit.
    rewrite (pathWeight_exact yk wf exact c Hcc Hcnd).
    assert (chain (reset yk) spath) as Hsc'.
    { eapply chain_mono; [|done]. intros a b.
      by apply From_subseteq_reset. }
    rewrite Hw, (pathWeight_exact yk wf exact spath Hsc' Hsnd) in Hopt.
    destruct spath as [|x rest]; [done|]. injection Hsh as ->.
    unfold c. rewrite zsum_app, <- (take_S_r _ _ _ Hspur), HtSn.
    clear -Hopt. float_cases.
  - intros p Hp. rewrite Hpc'. etrans; [by apply Hmax|]. rewrite Hlcp.
    apply lcp_ge; [| |by rewrite Hctake].
    + unfold c. rewrite length_app, length_take.
      destruct spath; simpl; [|lia].
      by destruct (sound _ _ _ _ _ HD) as [[_ ->]|((? & _) & _)].
    + lia.
Qed.

Lemma spurLoop_coverage paths prev count n pot pot' :
  Forall (acceptedOk yk s t) paths → prev ∈ paths →
  (n + count < length prev)%nat →
  Forall (candidateOk yk s t) pot →
  Forall (weighed yk) pot →
  NoDup (paths ++ (yenShortest.path <$> pot)) →
  coverage yk s t cost paths pot prev n →
  spurLoop DijkstraFromTo yk t cost paths prev count n pot = Ok pot' →
  coverage yk s t cost paths pot' prev (n + count).
Proof.
  intros Hpaths Hprev. revert n pot.
  induction count as [|count IH]; intros n pot Hn Hpot Hwpot Hnd Hcov H;
    simpl in H.
  - injection H as <-. by rewrite Nat.add_0_r.
  - destruct (spurBody _ _ _ _ _ _ _ _) as [pot1| |] eqn:Hbody; try done.
    simpl in H.
    pose proof Hbody as Hstruct.
    apply (spurBody_struct _ sound _ s) in Hstruct as (Hpot1 & Hnd1 & _);
      [|done|done|lia|done|done].
    pose proof Hbody as Hwpot1.
    apply (spurBody_weighed _ sound _ s) in Hwpot1;
      [|done|done|done|done|lia|done].
    apply spurBody_coverage in Hbody; [|done|done|lia|done|done|done|done].
    replace (n + S count)%nat with (S n + count)%nat by lia.
    apply (IH (S n) pot1); try done. lia.
Qed.

Lemma coverage_done paths pot prev q :
  looplessWalk yk s t prev → prev ∈ paths →
  coverage yk s t cost paths pot prev (length prev - 1) →
  looplessWalk yk s t q → q ∉ paths →
  fgt (pathWeight (weight yk) q) cost = true
  ∨ ∃ c, c ∈ pot
      ∧ fle (yenShortest.weight c) (pathWeight (weight yk) q)
      ∧ ∀ p, p ∈ paths → (lcp p q ≤ lcp (yenShortest.path c) q)%nat.
Proof.
  intros ((_ & Hpt & _) & _) Hprev Hcov Hq Hnew.
  destruct (Hcov q Hq Hnew) as [?|[?|[_ Hdev]]]; [by left|by right|].
  exfalso. apply Hnew.
  destruct Hq as ((_ & Hqt & _) & Hnd).
  replace q with prev; [done|]. symmetry.
  apply (prefix_same_target prev q t); try done.
  pose proof (lcp_le_l prev q). lia.
Qed.

Lemma iteration_opt st st' :
  structInv yk s t st → Forall (weighed yk) (pot st) →
  optInv yk s t cost st →
  iteration DijkstraFromTo SortFunc yk t cost st = Ok (inl st') →
  optInv yk s t cost st'.
Proof.
  intros Hst Hwpot (Hmono & Hmin & prev' & Hlast' & Hcov) Hit.
  pose proof Hst as (_ & _ & Hpaths & Hpot & Hnd).
  apply (iteration_struct _ _ sound permutes _ s) in Hit
    as (Hst' & best & prev & pot' & rest
        & Hlast & Hloop & Hsort & Hbest & Hle & Hpaths' & Hpot');
    [|done].
  rewrite Hlast in Hlast'. injection Hlast' as <-.
  pose proof (last_elem_of _ _ Hlast) as Hprev.
  assert (acceptedOk yk s t prev) as (Hprevw & Hprevlen)
    by (by eapply Forall_forall in Hpaths).
  pose proof Hloop as Hwpot'.
  apply (spurLoop_weighed _ sound _ s) in Hwpot';
    [|done|done|done|done|lia|done].
  apply spurLoop_coverage in Hloop; [|done|done|lia|done|done|done|done].
  simpl in Hloop.
  assert (∀ q, looplessWalk yk s t q → q ∉ paths st →
    fgt (pathWeight (weight yk) q) cost = true
    ∨ ∃ c, c ∈ best :: rest
        ∧ fle (yenShortest.weight c) (pathWeight (weight yk) q)
        ∧ ∀ p, p ∈ paths st →
            (lcp p q ≤ lcp (yenShortest.path c) q)%nat) as Hdone.
  { intros q Hq Hnew.
    destruct (coverage_done _ _ _ q Hprevw Hprev Hloop Hq Hnew)
      as [?|(c & Hc & ?)]; [by left|right].
    exists c. split; [|done]. by rewrite <- Hsort, (permutes pot'). }
  pose proof (sorts pot') as Hsorted. rewrite Hsort in Hsorted.
  apply StronglySorted_inv in Hsorted as [_ Hsorted].
  rewrite Forall_forall in Hsorted.
  destruct Hbest as (Hbw & Hblen).
  assert (weighed yk best) as Hbweight.
  { rewrite <- (permutes pot'), Hsort in Hwpot'.
    by apply Forall_cons in Hwpot' as [? _]. }
  unfold weighed in Hbweight.
  assert (∃ zb, yenShortest.weight best = Fin zb) as [zb Hzb].
  { rewrite Hbweight, (pathWeight_exact yk wf exact); [eauto| |];
      by destruct Hbw as ((_ & _ & ?) & ?). }
  destruct Hst' as (_ & _ & _ & _ & Hnd').
  unfold optInv. rewrite Hpaths', Hpot'. rewrite Hpaths' in Hnd'.
  assert (yenShortest.path best ∉ paths st) as Hbnew.
  { apply NoDup_app in Hnd' as [Hnd' _].
    apply NoDup_app in Hnd' as (_ & Hdisj & _).
    intros Hin. apply (Hdisj _ Hin). left. }
  assert (∀ q, looplessWalk yk s t q → q ∉ paths st →
    fle (pathWeight (weight yk) (yenShortest.path best))
        (pathWeight (weight yk) q)) as Hbmin.
  { intros q Hq Hnew. rewrite <- Hbweight.
    destruct (Hdone q Hq Hnew) as [Hgt|(c & Hc & Hcq & _)].
    - rewrite (pathWeight_exact yk wf exact q) in Hgt |- *;
        [| by destruct Hq as ((_ & _ & ?) & ?)..].
      rewrite Hzb in Hle |- *. clear -Hgt Hle. destruct cost; float_cases.
    - eapply fle_trans; [|done].
      apply elem_of_cons in Hc as [->|Hc]; [by apply fle_refl; rewrite Hzb|].
      apply byWeight_fle; [by apply Hsorted|by rewrite Hzb]. }
  split_and!.
  - rewrite fmap_app. apply nondecreasing_snoc; [done|].
    intros y Hy. rewrite fmap_last, Hlast in Hy. injection Hy as <-.
    by apply Hmin.
  - intros p q [Hp|Hp%list_elem_of_singleton]%elem_of_app Hq Hnew;
      [|subst p].
    + apply Hmin; try done. intros ?. apply Hnew, elem_of_app. by left.
    + apply Hbmin; [done|]. intros ?. apply Hnew, elem_of_app. by left.
  - exists (yenShortest.path best). split; [by rewrite last_snoc|].
    intros q Hq Hnew.
    assert (q ∉ paths st) as Hnew1
      by (intros ?; apply Hnew, elem_of_app; by left).
    assert (q ≠ yenShortest.path best) as Hnew2
      by (intros ->; apply Hnew, elem_of_app; right; left).
    assert (0 < lcp (yenShortest.path best) q)%nat as Hpos.
    { destruct Hbw as ((Hb & _) & _), Hq as ((Hqs & _) & _).
      by eapply lcp_pos. }
    destruct (Hdone q Hq Hnew1) as [Hgt|(c & Hc & Hcq & Hclcp)];
      [by left|]. right.
    assert (∀ m, (∀ p, p ∈ paths st → (lcp p q ≤ m)%nat) →
      (lcp (yenShortest.path best) q ≤ m)%nat →
      ∀ p, p ∈ paths st ++ [yenShortest.path best] → (lcp p q ≤ m)%nat)
      as Hall.
    { intros m H1 H2 p [?|Hp%list_elem_of_singleton]%elem_of_app;
        [eauto|by subst]. }
    apply elem_of_cons in Hc as [->|Hc].
    + right. split; [|done]. by apply Hall.
    + destruct (decide (lcp (yenShortest.path best) q
                        ≤ lcp (yenShortest.path c) q)%nat).
      * left. exists c. split_and!; try done. by apply Hall.
      * right. split; [|done]. apply Hall; [|done].
        intros p Hp. specialize (Hclcp p Hp). lia.
Qed.

End Optimality.

(** ** Nondecreasing weights, and the first path *)

Lemma walk_shortcut yk u t q :
  nonnegative yk → walk (reset yk) u t q →
  ∃ q', walk (reset yk) u t q' ∧ NoDup q'
    ∧ ∀ acc, nonnegFloat acc →
        fle (sumWeights (weight yk) acc q') (sumWeights (weight yk) acc q).
Proof.
  intros Hnn. revert u. induction q as [|a q IH]; intros u (Hh & Hl & Hc).
  { done. }
  injection Hh as ->. destruct q as [|b q].
  { exists [u]. split_and!; [done|apply NoDup_singleton|].
    intros acc Hacc. by apply fle_refl, nonnegFloat_not_NaN. }
  destruct Hc as [Hab Hc]. rewrite last_cons_cons in Hl.
  destruct (IH b) as (r & (Hrh & Hrl & Hrc) & Hrnd & Hrle); [done|].
  destruct r as [|b' r]; [done|]. injection Hrh as ->.
  pose proof Hab as Hab'. rewrite From_reset in Hab'.
  destruct (Hnn _ _ Hab') as (z & Hz & Hz0).
  destruct (decide (u ∈ b :: r)) as [Hin|Hout].
  - apply list_elem_of_split in Hin as (r1 & r2 & Hr).
    rewrite Hr in Hrnd, Hrl, Hrc, Hrle.
    pose proof Hrc as [Hc1 Hc2]%chain_app_inv.
    exists (u :: r2). split_and!.
    + rewrite last_app_cons in Hrl. by split_and!.
    + by apply NoDup_app in Hrnd as (_ & _ & ?).
    + intros acc Hacc. rewrite (sumWeights_cons _ _ u b), Hz. cbn [fst].
      pose proof (fadd_nonneg acc z Hacc Hz0) as Hacc1.
      eapply fle_trans; [|by apply Hrle].
      rewrite sumWeights_app.
      apply sumWeights_mono; [done|done|done|by apply sumWeights_nonneg|].
      eapply fle_trans; [by apply (fadd_ge acc z)|].
      by apply sumWeights_ge.
  - exists (u :: b :: r). split_and!.
    + by split_and!; [|rewrite last_cons_cons|].
    + by apply NoDup_cons.
    + intros acc Hacc. rewrite !(sumWeights_cons _ _ u b), Hz. cbn [fst].
      apply Hrle. by apply fadd_nonneg.
Qed.

Lemma iteration_grows D S yk t cost st st' :
  iteration D S yk t cost st = Ok (inl st') →
  ∃ best, paths st' = paths st ++ [best].
Proof.
  unfold iteration. intros H.
  destruct (indexZ _ _) as [prev| |]; try done. simpl in H.
  destruct (spurLoop _ _ _ _ _ _ _ _ _) as [pot'| |]; try done. simpl in H.
  destruct (length pot' =? 0)%nat; [done|].
  destruct (index _ 0) as [best| |]; try done. simpl in H.
  destruct (_ || _); [done|]. injection H as <-. simpl. eauto.
Qed.

Section FirstPath.

Variable DijkstraFromTo : Z → Z → yenKSPAdjuster → result (list Z * float64).
Variable SortFunc : list yenShortest.t → list yenShortest.t.
Variable UniformCost : graph.Graph → Weighting.
Hypothesis sound : oracleSound DijkstraFromTo.
Hypothesis optimal : oracleOptimal DijkstraFromTo.

Lemma Yen_head fuel g k cost s t ps :
  YenKShortestPaths DijkstraFromTo SortFunc UniformCost fuel g k cost s t
  = Ok ps →
  ∃ p w, DijkstraFromTo s t (newAdjuster UniformCost g) = Ok (p, w)
    ∧ (p = [] → ps = []) ∧ (p ≠ [] → head ps = Some p).
Proof.
  intros (p & w & HD & Hcase)%Yen_cases. exists p, w.
  split; [done|].
  destruct Hcase as [[-> ->]|[[Hlen ->]|[Hlen Hloop]]]; [done| |].
  - split; [by intros ->|done].
  - split; [intros ->; simpl in Hlen; lia|]. intros _.
    apply (loop_invariant _ _ _ _ _ (λ st, head (paths st) = Some p))
      in Hloop as (st' & Hhead & ->); [done| |done].
    intros st st' Hst (best & ->)%iteration_grows.
    by destruct (paths st).
Qed.

(** C2, as the code has it.  When the search is correct ([oracleSound] and
    [oracleOptimal]): on a well-formed graph with nonnegative weights in
    which the target can be reached from the source by a walk whose weight
    is finite, the result is not empty and its first path is a loopless
    walk from the source to the target that no walk from the source to the
    target undercuts, loopless or not.  Weights are the float64 sums of
    the edge weights in the order of the path. *)
Theorem first_path_is_shortest (fuel : nat) (g : graph.Graph) (k : Z)
    (cost : float64) (s t : Z) (ps : list (list Z)) :
  wellFormed g →
  nonnegative (newAdjuster UniformCost g) →
  s ∈ graph.Nodes g →
  (∃ q, walk (newAdjuster UniformCost g) s t q
        ∧ IsInf (pathWeight (weight (newAdjuster UniformCost g)) q) = false) →
  YenKShortestPaths DijkstraFromTo SortFunc UniformCost fuel g k cost s t
  = Ok ps →
  ∃ first rest,
    ps = first :: rest
    ∧ walk (newAdjuster UniformCost g) s t first ∧ NoDup first
    ∧ ∀ q, walk (newAdjuster UniformCost g) s t q →
        fle (pathWeight (weight (newAdjuster UniformCost g)) first)
            (pathWeight (weight (newAdjuster UniformCost g)) q).
Proof.
  intros Hwf Hnn Hs (q0 & Hq0 & Hfin) (p & w & HD & Hempty & Hhead)%Yen_head.
  set (yk := newAdjuster UniformCost g) in *.
  assert (∀ q, walk yk s t q → fle w (pathWeight (weight yk) q)) as Hopt.
  { intros q Hq.
    destruct (walk_shortcut yk s t q Hnn Hq) as (q' & Hq' & Hnd & Hle).
    eapply fle_trans; [|apply (Hle (Fin 0)), nonnegFloat_zero].
    by eapply (optimal s t yk). }
  destruct (sound _ _ _ _ _ HD) as [[-> ->]|(Hwalk & Hnd & Hw)].
  - exfalso. specialize (Hopt q0 Hq0).
    by destruct (pathWeight (weight yk) q0).
  - assert (p ≠ []) as Hp by (by destruct Hwalk as (? & _); intros ->).
    specialize (Hhead Hp). destruct ps as [|first rest]; [done|].
    injection Hhead as ->. exists p, rest. split_and!; try done.
    intros q Hq. rewrite <- Hw. by apply Hopt.
Qed.

End FirstPath.

Section Ordering.

Variable DijkstraFromTo : Z → Z → yenKSPAdjuster → result (list Z * float64).
Variable SortFunc : list yenShortest.t → list yenShortest.t.
Variable UniformCost : graph.Graph → Weighting.
Hypothesis sound : oracleSound DijkstraFromTo.
Hypothesis optimal : oracleOptimal DijkstraFromTo.
Hypothesis permutes : sortPermutes SortFunc.
Hypothesis sorts : sortSorts SortFunc.

Lemma init_opt g s t cost p w :
  wellFormed g → nonnegative (newAdjuster UniformCost g) →
  DijkstraFromTo s t (newAdjuster UniformCost g) = Ok (p, w) →
  (2 ≤ length p)%nat →
  optInv (newAdjuster UniformCost g) s t cost
    {| paths := [p]; pot := []; i := 1 |}.
Proof.
  intros Hwf Hnn HD Hlen.
  set (yk := newAdjuster UniformCost g) in *.
  destruct (first_path _ UniformCost sound g s t p w HD)
    as [((Hs & Ht & Hc) & Hnd) Hw].
  { intros ->. simpl in Hlen. lia. }
  fold yk in Hs, Ht, Hc, Hw.
  assert (s ∈ graph.Nodes g) as Hin.
  { destruct p as [|a [|b p]]; simpl in Hlen; try lia.
    injection Hs as ->. destruct Hc as [Hab _].
    rewrite From_reset in Hab. by apply Hwf in Hab as [? _]. }
  split_and!; simpl.
  - done.
  - intros p' q ->%list_elem_of_singleton ((? & ? & ?) & ?) _.
    rewrite <- Hw. by eapply (optimal s t yk).
  - exists p. split; [done|]. intros q ((Hqs & _) & _) _.
    right; right. split.
    + by intros p' ->%list_elem_of_singleton.
    + by eapply lcp_pos.
Qed.

Lemma loop_opt fuel g k cost s t p w ps :
  wellFormed g → exactWeights (newAdjuster UniformCost g) →
  DijkstraFromTo s t (newAdjuster UniformCost g) = Ok (p, w) →
  (2 ≤ length p)%nat →
  loop DijkstraFromTo SortFunc fuel (newAdjuster UniformCost g) k t cost
    {| paths := [p]; pot := []; i := 1 |} = Ok ps →
  ∃ st, structInv (newAdjuster UniformCost g) s t st
    ∧ Forall (weighed (newAdjuster UniformCost g)) (pot st)
    ∧ optInv (newAdjuster UniformCost g) s t cost st
    ∧ ps = paths st.
Proof.
  intros Hwf Hex HD Hlen Hloop.
  set (yk := newAdjuster UniformCost g) in *.
  apply (loop_invariant _ _ _ _ _
           (λ st, structInv yk s t st ∧ Forall (weighed yk) (pot st)
                  ∧ optInv yk s t cost st))
    in Hloop as (st' & (? & ? & ?) & ->); [by exists st'| |].
  - intros st st' (Hst & Hw & Hopt) Hit. split_and!.
    + by apply (iteration_struct _ _ sound permutes _ s) in Hit as [? _].
    + by apply (iteration_weighed _ _ sound permutes yk s) in Hit as [? _].
    + by eapply iteration_opt.
  - split_and!; [by eapply init_struct|done|].
    apply (init_opt _ _ _ _ _ w); try done. by apply exact_nonnegative.
Qed.

(** C3, as the code has it.  When the search is correct ([oracleSound] and
    [oracleOptimal]) and the sort returns the pool in ascending order of
    weight ([sortPermutes] and [sortSorts]): on a well-formed graph on
    which the additions are exact ([exactWeights]: nonnegative weights that
    are multiples of one power of two and too small for a path to sum up to
    2^53 of them), the weights of the returned paths never decrease along
    the result. *)
Theorem returned_weights_nondecreasing (fuel : nat) (g : graph.Graph)
    (k : Z) (cost : float64) (s t : Z) (ps : list (list Z)) :
  wellFormed g →
  exactWeights (newAdjuster UniformCost g) →
  YenKShortestPaths DijkstraFromTo SortFunc UniformCost fuel g k cost s t
  = Ok ps →
  nondecreasing (pathWeight (weight (newAdjuster UniformCost g)) <$> ps).
Proof.
  intros Hwf Hex (p & w & HD & Hcase)%Yen_cases.
  destruct Hcase as [[-> ->]|[[Hlen ->]|[Hlen Hloop]]]; [done|done|].
  apply (loop_opt _ _ _ _ s _ _ w) in Hloop
    as (st & _ & _ & (Hmono & _) & ->); done.
Qed.

End Ordering.

Section Budget.

Variable DijkstraFromTo : Z → Z → yenKSPAdjuster → result (list Z * float64).
Variable SortFunc : list yenShortest.t → list yenShortest.t.
Variable UniformCost : graph.Graph → Weighting.
Hypothesis sound : oracleSound DijkstraFromTo.
Hypothesis permutes : sortPermutes SortFunc.



End Budget.

(** ** Enough fuel gives a result *)

Lemma removeRootEdges_total yk yk1 s t paths prev n spur :
  Forall (acceptedOk yk s t) paths →
  (S n < length prev)%nat → prev !! n = Some spur → spur ≠ t →
  ∃ yk', removeRootEdges yk1 paths (take (S n) prev) n = Ok yk'.
Proof.
  intros Hpaths Hn Hspur Hne. revert yk1.
  induction Hpaths as [|path rest Hpath _ IH]; intros yk1; simpl; [eauto|].
  destruct (length path <=? n)%nat eqn:Hlen; [apply IH|].
  apply Nat.leb_gt in Hlen.
  destruct (samePrefix _ path) eqn:Hsame; [|apply IH].
  destruct Hpath as (((_ & Hlast & _) & _) & _).
  apply samePrefix_take in Hsame.
  rewrite length_take, Nat.min_l in Hsame by lia.
  assert (n + 2 ≤ length path)%nat as Hge.
  { apply (root_match_length path (take (S n) prev) t n); try done.
    - rewrite length_take. lia.
    - rewrite last_lookup, length_take, Nat.min_l by lia. simpl.
      rewrite lookup_take_lt by lia. rewrite Hspur. congruence. }
  destruct (lookup_lt_is_Some_2 path n) as [u Hu]; [lia|].
  destruct (lookup_lt_is_Some_2 path (S n)) as [v Hv]; [lia|].
  unfold index. rewrite Hu, Hv. simpl. apply IH.
Qed.

Section Totality.

Variable DijkstraFromTo : Z → Z → yenKSPAdjuster → result (list Z * float64).
Variable SortFunc : list yenShortest.t → list yenShortest.t.
Hypothesis sound : oracleSound DijkstraFromTo.
Hypothesis total : oracleTotal DijkstraFromTo.
Hypothesis permutes : sortPermutes SortFunc.

Variable yk : yenKSPAdjuster.
Variables s t : Z.
Variable cost : float64.
Hypothesis wf : wellFormed (Graph yk).
Hypothesis nonneg : nonnegative yk.

Lemma spurBody_total paths prev pot n :
  Forall (acceptedOk yk s t) paths → prev ∈ paths →
  (S n < length prev)%nat →
  ∃ pot', spurBody DijkstraFromTo yk t cost paths prev pot n = Ok pot'.
Proof.
  intros Hpaths Hprev Hn. unfold spurBody.
  destruct (lookup_lt_is_Some_2 prev n) as [spur Hspur]; [lia|].
  unfold index at 1. rewrite Hspur. simpl.
  assert (acceptedOk yk s t prev) as ((Hwalk & Hnd) & _)
    by (by eapply Forall_forall in Hpaths).
  assert (spur ≠ t) as Hne by eauto using spur_not_target.
  destruct (removeRootEdges_total yk (reset yk) s t paths prev n spur)
    as [yk1 Hedges]; try done.
  rewrite Hedges. simpl.
  apply removeRootEdges_spec in Hedges as (HG & _ & HW & _ & _).
  destruct (foldl_removeNode_spec yk1
    (take (length (take (S n) prev) - 1) (take (S n) prev)))
    as (HG' & _ & HW' & _ & _).
  fold (removeRootNodes yk1 (take (S n) prev)) in HG', HW'.
  destruct (total spur t (removeRootNodes yk1 (take (S n) prev)))
    as [[spath w] HD].
  - by rewrite HG', HG.
  - intros a b Hab. rewrite HG', HG in Hab. rewrite HW', HW.
    by apply nonneg.
  - rewrite HD. simpl. destruct (_ || _); [eauto|].
    destruct (_ <? _)%nat; eauto.
Qed.

Lemma spurLoop_total paths prev count n pot :
  Forall (acceptedOk yk s t) paths → prev ∈ paths →
  (n + count < length prev)%nat →
  ∃ pot', spurLoop DijkstraFromTo yk t cost paths prev count n pot = Ok pot'.
Proof.
  intros Hpaths Hprev. revert n pot.
  induction count as [|count IH]; intros n pot Hn; simpl; [eauto|].
  destruct (spurBody_total paths prev pot n) as [pot1 ->]; [done|done|lia|].
  simpl. apply IH. lia.
Qed.

Lemma iteration_total st :
  structInv yk s t st →
  ∃ r, iteration DijkstraFromTo SortFunc yk t cost st = Ok r.
Proof.
  intros (Hi & Hne & Hpaths & _ & _). unfold iteration.
  destruct (last (paths st)) as [prev|] eqn:Hlast;
    [|by apply last_None in Hlast].
  assert (indexZ (paths st) (i st - 1) = Ok prev) as ->.
  { unfold indexZ. rewrite Hi. rewrite last_lookup in Hlast.
    destruct (paths st); [done|]. simpl length in *.
    rewrite (proj2 (Z.ltb_ge _ _)) by lia. apply index_Ok.
    rewrite <- Hlast. f_equal. lia. }
  simpl. pose proof (last_elem_of _ _ Hlast) as Hprev.
  assert (2 ≤ length prev)%nat as Hlen.
  { rewrite Forall_forall in Hpaths. by destruct (Hpaths _ Hprev). }
  destruct (spurLoop_total (paths st) prev (length prev - 1) 0 (pot st))
    as [pot' ->]; [done|done|lia|].
  simpl. destruct (length pot' =? 0)%nat eqn:Hpot; [eauto|].
  apply Nat.eqb_neq in Hpot.
  pose proof (Permutation_length (permutes pot')) as Hperm.
  destruct (SortFunc pot') as [|best rest]; [simpl in Hperm; lia|].
  simpl. destruct (_ || _); eauto.
Qed.

Lemma accepted_bound st :
  structInv yk s t st →
  (length (paths st)
   ≤ length (Reference.simplePaths (reset yk) t
               (length (graph.Nodes (Graph yk))) [] s))%nat.
Proof.
  intros (_ & _ & Hpaths & _ & Hnd).
  apply submseteq_length, NoDup_submseteq.
  - by apply NoDup_app in Hnd as [? _].
  - intros p Hp. rewrite Forall_forall in Hpaths.
    destruct (Hpaths _ Hp) as ((Hwalk & Hndp) & _).
    apply ReferenceFacts.simplePaths_complete; try done.
    + by intros x _ ?%elem_of_nil.
    + by apply (ReferenceFacts.walk_length_bound (reset yk) s t).
Qed.

Lemma loop_total fuel k st :
  structInv yk s t st →
  (length (Reference.simplePaths (reset yk) t
             (length (graph.Nodes (Graph yk))) [] s)
   < length (paths st) + fuel)%nat →
  ∃ ps, loop DijkstraFromTo SortFunc fuel yk k t cost st = Ok ps.
Proof.
  revert st. induction fuel as [|fuel IH]; intros st Hst Hfuel; simpl.
  - pose proof (accepted_bound st Hst). lia.
  - destruct (_ || _); [|eauto].
    destruct (iteration_total st Hst) as [[st'|ps] Hit]; rewrite Hit; simpl;
      [|eauto].
    pose proof Hit as (best & Hgrow)%iteration_grows.
    apply (iteration_struct _ _ sound permutes _ s) in Hit as [Hst' _];
      [|done].
    apply IH; [done|]. rewrite Hgrow, length_app. simpl. lia.
Qed.

End Totality.

(** X11. With enough fuel the call returns, provided the search answers:
    the accepted paths are distinct loopless walks, of which a finite graph
    has finitely many, so the outer loop ends even when [k] is negative. *)
Theorem YenKShortestPaths_returns
    (DijkstraFromTo : Z → Z → yenKSPAdjuster → result (list Z * float64))
    (SortFunc : list yenShortest.t → list yenShortest.t)
    (UniformCost : graph.Graph → Weighting)
    (g : graph.Graph) (k : Z) (cost : float64) (s t : Z) :
  oracleSound DijkstraFromTo → oracleTotal DijkstraFromTo →
  sortPermutes SortFunc →
  wellFormed g → nonnegative (newAdjuster UniformCost g) →
  ∃ fuel0, ∀ fuel, (fuel0 ≤ fuel)%nat →
    ∃ ps,
      YenKShortestPaths DijkstraFromTo SortFunc UniformCost fuel g k cost s t
      = Ok ps.
Proof.
  intros sound total permutes Hwf Hnn.
  set (yk := newAdjuster UniformCost g).
  exists (length (Reference.simplePaths (reset yk) t
                    (length (graph.Nodes (Graph yk))) [] s)).
  intros fuel Hfuel. unfold YenKShortestPaths. fold yk.
  destruct (total s t yk Hwf Hnn) as [[p w] HD]. rewrite HD. simpl.
  destruct p as [|a [|b p]]; [eauto|eauto|].
  apply (loop_total _ _ sound total permutes yk s); try done.
  - eapply init_struct; [done|done|simpl; lia].
  - cbn [paths length]. lia.
Qed.

(** ** The algorithm run on the reference instances *)

Module Witnesses.

Import Reference ReferenceFacts.

Ltac by_computation :=
  match goal with |- ?P => apply (bool_decide_unpack P) end;
  vm_compute; exact I.

Lemma ofEdges_From directed nodes edges u v :
  v ∈ graph.From (ofEdges directed nodes edges) u ↔
  ∃ z, (u, v, z) ∈ edges.
Proof.
  simpl. rewrite list_elem_of_fmap. split.
  - intros ([[a b] z] & -> & [Ha He]%list_elem_of_filter). simpl in *.
    subst. eauto.
  - intros [z Hz]. exists (u, v, z). split; [done|].
    by apply list_elem_of_filter.
Qed.

Lemma ofEdges_wellFormed directed nodes edges :
  Forall (λ e : Z * Z * Z, e.1.1 ∈ nodes ∧ e.1.2 ∈ nodes) edges →
  wellFormed (ofEdges directed nodes edges).
Proof.
  rewrite Forall_forall. intros H u v [z Hz]%ofEdges_From.
  apply (H _ Hz).
Qed.

Lemma ofEdges_weight U directed nodes edges u v :
  v ∈ graph.From (ofEdges directed nodes edges) u →
  ∃ e, e ∈ edges
    ∧ weight (newAdjuster U (ofEdges directed nodes edges)) u v
      = (ofInt e.2, true).
Proof.
  intros [z Hz]%ofEdges_From. simpl. unfold edgeWeight.
  destruct (list_find _ edges) as [[j e]|] eqn:Hfind.
  - apply list_find_Some in Hfind as (Hj & _ & _).
    exists e. split; [by eapply list_elem_of_lookup_2|done].
  - exfalso. apply list_find_None in Hfind.
    rewrite Forall_forall in Hfind. by apply (Hfind _ Hz).
Qed.

Lemma ofEdges_nonnegative U directed nodes edges :
  Forall (λ e : Z * Z * Z, finNonneg (ofInt e.2) = true) edges →
  nonnegative (newAdjuster U (ofEdges directed nodes edges)).
Proof.
  rewrite Forall_forall. intros H u v (e & He & ->)%(ofEdges_weight U).
  specialize (H e He). destruct (ofInt e.2) as [z| | |]; try done.
  exists z. split; [done|]. by apply Z.leb_le.
Qed.

Lemma ofEdges_exact U directed nodes edges B :
  0 ≤ B < 2 ^ 53 → B * Z.of_nat (length nodes) < 2 ^ 53 →
  Forall (λ e : Z * Z * Z, 0 ≤ e.2 ≤ B) edges →
  exactWeights (newAdjuster U (ofEdges directed nodes edges)).
Proof.
  rewrite Forall_forall. intros HB HN H. exists 1074, B.
  split_and!; [lia|lia|lia|done|].
  intros u v (e & He & ->)%(ofEdges_weight U). specialize (H e He).
  exists e.2. split; [|done]. f_equal. apply ofInt_small. lia.
Qed.

Lemma example_wellFormed : wellFormed example.
Proof. apply ofEdges_wellFormed. by_computation. Qed.

Lemma example_nonnegative : nonnegative (newAdjuster UniformCost example).
Proof. apply ofEdges_nonnegative. by_computation. Qed.

Lemma example_exact : exactWeights (newAdjuster UniformCost example).
Proof.
  apply (ofEdges_exact _ _ _ _ 2); [done|by_computation|by_computation].
Qed.

Lemma example_run :
  Yen 5 example 3 PInf 0 4
  = Ok [[0; 1; 3; 4]; [0; 2; 3; 4]; [0; 1; 2; 3; 4]].
Proof. vm_compute. reflexivity. Qed.

Lemma first_path_is_shortest_witness :
  ∃ first rest,
    [[0; 1; 3; 4]; [0; 2; 3; 4]; [0; 1; 2; 3; 4]] = first :: rest
    ∧ walk (newAdjuster UniformCost example) 0 4 first ∧ NoDup first
    ∧ ∀ q, walk (newAdjuster UniformCost example) 0 4 q →
        fle (pathWeight (weight (newAdjuster UniformCost example)) first)
            (pathWeight (weight (newAdjuster UniformCost example)) q).
Proof.
  apply (first_path_is_shortest DijkstraFromTo SortFunc UniformCost
           oracle_sound oracle_optimal 5 example 3 PInf 0 4).
  - exact example_wellFormed.
  - exact example_nonnegative.
  - by_computation.
  - exists [0; 1; 3; 4]. split; [|vm_compute; reflexivity].
    split_and!; [reflexivity|reflexivity|].
    repeat split; by_computation.
  - exact example_run.
Defined.

(** C2, as stated, fails: both edges of this graph weigh 2^1023, the target
    can be reached from the source, and the result is empty, because the
    weight of the only path is [+Inf] in float64 and the search reports a
    target at that distance as unreachable. *)
Lemma overflow_reads_as_unreachable :
  wellFormed overflowing
  ∧ nonnegative (newAdjuster UniformCost overflowing)
  ∧ walk (newAdjuster UniformCost overflowing) 0 2 [0; 1; 2]
  ∧ pathWeight (weight (newAdjuster UniformCost overflowing)) [0; 1; 2]
    = PInf
  ∧ Yen 5 overflowing (-1) (Fin 0) 0 2 = Ok [].
Proof.
  split_and!.
  - apply ofEdges_wellFormed. by_computation.
  - apply ofEdges_nonnegative. by_computation.
  - split_and!; [reflexivity|reflexivity|]. repeat split; by_computation.
  - vm_compute. reflexivity.
  - vm_compute. reflexivity.
Qed.

Lemma returned_weights_nondecreasing_witness :
  nondecreasing
    (pathWeight (weight (newAdjuster UniformCost example))
       <$> [[0; 1; 3; 4]; [0; 2; 3; 4]; [0; 1; 2; 3; 4]]).
Proof.
  apply (returned_weights_nondecreasing DijkstraFromTo SortFunc UniformCost
           oracle_sound oracle_optimal sort_permutes sort_sorts
           5 example 3 PInf 0 4).
  - exact example_wellFormed.
  - exact example_exact.
  - exact example_run.
Defined.

(** C3, as stated, fails: on this graph with nonnegative weights the third
    returned path weighs more than the fourth, both as the float64 sum
    along the path (2^53 + 8 against 2^53 + 4) and as the sum without
    rounding (2^53 + 6 against 2^53 + 5).  The pool holds them with the
    weights 2^53 + 4 and 2^53 + 6: the sum of the rounded spur weight and
    the root weight. *)
Lemma rounded_weights_decrease :
  wellFormed rounded
  ∧ nonnegative (newAdjuster UniformCost rounded)
  ∧ Yen 5 rounded (-1) PInf 0 3
    = Ok [[0; 2; 3]; [0; 1; 3]; [0; 1; 2; 3]; [0; 2; 1; 3]]
  ∧ ¬ nondecreasing
        (pathWeight (weight (newAdjuster UniformCost rounded))
           <$> [[0; 2; 3]; [0; 1; 3]; [0; 1; 2; 3]; [0; 2; 1; 3]])
  ∧ zsum (weight (newAdjuster UniformCost rounded)) [0; 2; 1; 3]
    < zsum (weight (newAdjuster UniformCost rounded)) [0; 1; 2; 3].
Proof.
  split_and!.
  - apply ofEdges_wellFormed. by_computation.
  - apply ofEdges_nonnegative. by_computation.
  - vm_compute. reflexivity.
  - intros (_ & _ & H & _). vm_compute in H. discriminate.
  - vm_compute. reflexivity.
Qed.



Lemma no_duplicate_paths_witness :
  NoDup [[0; 1; 3; 4]; [0; 2; 3; 4]; [0; 1; 2; 3; 4]].
Proof.
  assert (DijkstraFromTo 0 4 (newAdjuster UniformCost example)
          = Ok ([0; 1; 3; 4], ofInt 3)) as HD by (vm_compute; reflexivity).
  apply (proj2 (no_duplicate_paths DijkstraFromTo SortFunc UniformCost
                  oracle_sound sort_permutes example 3 PInf 0 4 _ _ HD) 5%nat).
  exact example_run.
Defined.

Lemma returned_paths_are_loopless_witness :
  Forall (λ p, NoDup p ∧ walk (newAdjuster UniformCost example) 0 4 p)
    [[0; 1; 3; 4]; [0; 2; 3; 4]; [0; 1; 2; 3; 4]].
Proof.
  apply (returned_paths_are_loopless DijkstraFromTo SortFunc UniformCost
           oracle_sound sort_permutes 5 example 3 PInf 0 4).
  exact example_run.
Defined.

Lemma unreachable_or_trivial_witness :
  Yen 5 example 3 PInf 4 0 = Ok [] ∧ Yen 5 example 3 PInf 4 4 = Ok [[4]].
Proof.
  split.
  - apply (unreachable_or_trivial DijkstraFromTo SortFunc UniformCost
             5 example 3 PInf 4 0 [] PInf); [vm_compute|]; reflexivity.
  - apply (unreachable_or_trivial DijkstraFromTo SortFunc UniformCost
             5 example 3 PInf 4 4 [4] (Fin 0)); [vm_compute|]; reflexivity.
Defined.

Lemma zero_k_returns_shortest_witness :
  Yen 0 example 0 (Fin 0) 0 4 = Ok [[0; 1; 3; 4]]
  ∧ Yen 0 example 0 (Fin 0) 0 4 = Yen 0 example 1 (Fin 0) 0 4.
Proof.
  apply (zero_k_returns_shortest DijkstraFromTo SortFunc UniformCost
           0 example (Fin 0) 0 4 [0; 1; 3; 4] (ofInt 3)).
  - vm_compute. reflexivity.
  - discriminate.
Defined.

(** C1: this graph has an edge of weight -1, and the call returns the path
    it found instead of failing. *)
Lemma negative_edge_without_failure :
  hasNegativeEdge (newAdjuster UniformCost negativeElsewhere)
  ∧ Yen 5 negativeElsewhere (-1) PInf 0 1 = Ok [[0; 1]].
Proof.
  split.
  - exists 2, 0, (- 2 ^ 1074).
    split_and!; [by_computation|vm_compute; reflexivity|done].
  - vm_compute. reflexivity.
Qed.

Lemma root_match_index_in_bounds_witness :
  (1 + 2 ≤ length [0; 1; 3; 4])%nat ∧ ∃ v, index [0; 1; 3; 4] 2 = Ok v.
Proof.
  apply (root_match_index_in_bounds [0; 1; 3; 4] [0; 1] 4 1);
    [reflexivity|reflexivity|simpl; lia|reflexivity|discriminate].
Defined.

Lemma example_returns :
  ∃ fuel0, ∀ fuel, (fuel0 ≤ fuel)%nat →
    ∃ ps, Yen fuel example (-1) PInf 0 4 = Ok ps.
Proof.
  apply (YenKShortestPaths_returns DijkstraFromTo SortFunc UniformCost
           example (-1) PInf 0 4 oracle_sound oracle_total sort_permutes
           example_wellFormed example_nonnegative).
Defined.

End Witnesses.

(** ** What the view shows, operation by operation *)

Lemma fromLoop_Permutation g id fuel nodes :
  (length nodes ≤ fuel)%nat →
  fromLoop g id fuel nodes ≡ₚ filter (λ v, canWalk g id v = true) nodes.
Proof.
  revert nodes. induction fuel as [|fuel IH]; intros nodes Hlen.
  - destruct nodes; simpl in *; [done|lia].
  - destruct nodes as [|x rest]; [done|]. simpl in Hlen. simpl fromLoop.
    destruct (canWalk g id x) eqn:Hx.
    + rewrite filter_cons_True by done. f_equiv. apply IH. lia.
    + rewrite filter_cons_False by (by rewrite Hx).
      destruct (last rest) as [y|] eqn:Hy.
      * pose proof (last_removelast _ _ Hy) as Hrest.
        rewrite IH.
        2:{ simpl. rewrite Hrest, length_app in Hlen. simpl in Hlen. lia. }
        f_equiv. rewrite Hrest at 2. by rewrite Permutation_app_comm.
      * by apply last_None in Hy as ->.
Qed.

Lemma From_filter_canWalk g id :
  From g id ≡ₚ
  if decide (id ∈ visitedNodes g) then []
  else filter (λ v, canWalk g id v = true) (graph.From (Graph g) id).
Proof.
  unfold From. case_decide; [done|]. by rewrite fromLoop_Permutation by lia.
Qed.

(** X1. The neighbours the view enumerates are, up to order and with their
    multiplicities, the neighbours of the wrapped graph that are not
    suppressed and are not reached by a suppressed edge; a suppressed node
    has none. *)
Theorem From_enumerates_unmasked (g : yenKSPAdjuster) (id : Z) :
  From g id ≡ₚ
  if decide (id ∈ visitedNodes g) then []
  else filter (λ v, (v ∉ visitedNodes g) ∧ ((id, v) ∉ visitedEdges g))
         (graph.From (Graph g) id).
Proof.
  rewrite From_filter_canWalk. case_decide; [done|].
  erewrite list_filter_iff; [done|].
  intros v. apply canWalk_true.
Qed.

(** X2. Whatever has been suppressed before, after [reset] the view
    enumerates the neighbours of the wrapped graph unchanged, in their
    original order. *)
Theorem reset_restores_neighbours (g : yenKSPAdjuster) (ops : list maskOp)
    (id : Z) :
  From (reset (foldl applyOp g ops)) id = graph.From (Graph g) id.
Proof.
  rewrite From_reset.
  by destruct (foldl_applyOp_frame ops g) as (-> & _ & _).
Qed.

Lemma adjuster_eq (g1 g2 : yenKSPAdjuster) :
  Graph g1 = Graph g2 → isDirected g1 = isDirected g2 →
  weight g1 = weight g2 → visitedNodes g1 = visitedNodes g2 →
  visitedEdges g1 = visitedEdges g2 → g1 = g2.
Proof. destruct g1, g2; simpl; by intros -> -> -> -> ->. Qed.

(** X3. Suppressing a node is idempotent and independent of the order of
    suppression; the node then has no neighbours and is nobody's neighbour,
    and the edges between other nodes are shown as before. *)
Theorem removeNode_hides_node (g : yenKSPAdjuster) (u : Z) :
  removeNode (removeNode g u) u = removeNode g u
  ∧ (∀ v, removeNode (removeNode g u) v = removeNode (removeNode g v) u)
  ∧ From (removeNode g u) u = []
  ∧ (∀ x, u ∉ From (removeNode g u) x)
  ∧ (∀ x v, x ≠ u → v ≠ u →
       (v ∈ From (removeNode g u) x ↔ v ∈ From g x)).
Proof.
  split_and!.
  - apply adjuster_eq; simpl; try done. set_solver.
  - intros v. apply adjuster_eq; simpl; try done. set_solver.
  - unfold From. rewrite decide_True; [done|]. simpl. set_solver.
  - intros x (_ & _ & Hw)%elem_of_From.
    apply canWalk_true in Hw as [Hw _]. simpl in Hw. set_solver.
  - intros x v Hx Hv. rewrite !elem_of_From, !canWalk_true. simpl.
    set_solver.
Qed.

(** X4. Suppressing the edge from [u] to [v] hides [v] among the neighbours
    of [u]; when the graph is undirected it hides [u] among the neighbours
    of [v] as well, and when it is directed the opposite edge is shown as
    before; every other edge is shown as before. *)
Theorem removeEdge_hides_edge (g : yenKSPAdjuster) (u v : Z) :
  (v ∉ From (removeEdge g u v) u)
  ∧ (if isDirected g
     then ∀ a b, (a, b) ≠ (u, v) →
            (b ∈ From (removeEdge g u v) a ↔ b ∈ From g a)
     else (u ∉ From (removeEdge g u v) v)
          ∧ ∀ a b, (a, b) ≠ (u, v) → (a, b) ≠ (v, u) →
              (b ∈ From (removeEdge g u v) a ↔ b ∈ From g a)).
Proof.
  split.
  - intros (_ & _ & Hw)%elem_of_From.
    apply canWalk_true in Hw as [_ Hw]. apply Hw, elem_of_removeEdge. auto.
  - destruct (isDirected g) eqn:Hd.
    + intros a b Hab. rewrite !elem_of_From, !canWalk_true.
      rewrite elem_of_removeEdge, Hd. simpl.
      split; [tauto|]. intros (? & ? & ? & ?). split_and!; try done.
      intros [?|[[-> ->]|(? & _)]]; done.
    + split.
      * intros (_ & _ & Hw)%elem_of_From.
        apply canWalk_true in Hw as [_ Hw]. apply Hw, elem_of_removeEdge.
        auto.
      * intros a b Hab Hba. rewrite !elem_of_From, !canWalk_true.
        rewrite elem_of_removeEdge. simpl.
        split; [tauto|]. intros (? & ? & ? & ?). split_and!; try done.
        intros [?|[[-> ->]|(_ & -> & ->)]]; done.
Qed.

Lemma filter_submseteq_impl {A} (P Q : A → Prop)
    `{∀ x, Decision (P x)} `{∀ x, Decision (Q x)} (l : list A) :
  (∀ x, P x → Q x) → filter P l ⊆+ filter Q l.
Proof.
  intros HPQ. induction l as [|x l IH]; [done|].
  destruct (decide (P x)) as [HP|HP].
  - rewrite !filter_cons_True by auto. by apply submseteq_skip.
  - rewrite (filter_cons_False P) by done.
    destruct (decide (Q x)).
    + rewrite filter_cons_True by done. by apply submseteq_cons.
    + by rewrite filter_cons_False by done.
Qed.

Lemma From_shrinks_step g op id :
  op ≠ opReset → From (applyOp g op) id ⊆+ From g id.
Proof.
  intros Hop. rewrite !From_filter_canWalk.
  destruct op as [|u|u v]; [done| |]; simpl.
  - destruct (decide (id ∈ visitedNodes g)).
    + rewrite decide_True by set_solver. done.
    + case_decide; [apply submseteq_nil_l|].
      apply filter_submseteq_impl. intros x. rewrite !canWalk_true. simpl.
      set_solver.
  - case_decide; [done|].
    apply filter_submseteq_impl. intros x. rewrite !canWalk_true.
    intros [? Hx]. split; [done|].
    intros ?. apply Hx. simpl. destruct (isDirected g); set_solver.
Qed.

(** X5. Between two calls of [reset] suppression only accumulates: after any
    sequence of [removeNode] and [removeEdge] the view enumerates, for every
    node, no neighbour it did not enumerate before, and none more often. *)
Theorem suppression_only_shrinks (g : yenKSPAdjuster) (ops : list maskOp)
    (id : Z) :
  (opReset ∉ ops) →
  From (foldl applyOp g ops) id ⊆+ From g id.
Proof.
  revert g. induction ops as [|op ops IH]; intros g Hops; [done|].
  simpl. etrans; [apply IH; set_solver|].
  apply From_shrinks_step. set_solver.
Qed.

(** X6. [isSamePath] decides equality of node sequences, and does not
    depend on the order of its arguments. *)
Theorem isSamePath_decides_equality (a b : list Z) :
  (isSamePath a b = true ↔ a = b) ∧ isSamePath a b = isSamePath b a.
Proof.
  split; [apply isSamePath_true|].
  destruct (isSamePath a b) eqn:Hab, (isSamePath b a) eqn:Hba; try done.
  - apply isSamePath_true in Hab as ->.
    by rewrite (proj2 (isSamePath_true b b)) in Hba.
  - apply isSamePath_true in Hba as ->.
    by rewrite (proj2 (isSamePath_true a a)) in Hab.
Qed.

(** ** The count bound *)

Lemma iteration_counts D Srt yk t cost st st' :
  iteration D Srt yk t cost st = Ok (inl st') →
  i st' = i st + 1 ∧ length (paths st') = S (length (paths st)).
Proof.
  unfold iteration. intros H.
  destruct (indexZ _ _) as [prev| |]; try done. simpl in H.
  destruct (spurLoop _ _ _ _ _ _ _ _ _) as [pot'| |]; try done. simpl in H.
  destruct (length pot' =? 0)%nat; [done|].
  destruct (index _ 0) as [best| |]; try done. simpl in H.
  destruct (_ || _); [done|]. injection H as <-. simpl.
  rewrite length_app. simpl. split; lia.
Qed.

Lemma loop_count D Srt fuel yk k t cost st ps :
  0 ≤ k → i st = Z.of_nat (length (paths st)) →
  loop D Srt fuel yk k t cost st = Ok ps →
  Z.of_nat (length ps) ≤ Z.max (Z.of_nat (length (paths st))) k.
Proof.
  intros Hk. revert st. induction fuel as [|fuel IH]; intros st Hi H;
    simpl in H.
  - destruct (_ || _); [done|]. injection H as <-. lia.
  - destruct (_ || _) eqn:Hcond; [|injection H as <-; lia].
    apply orb_true_iff in Hcond as [Hneg|Hlt]; [apply Z.ltb_lt in Hneg; lia|].
    apply Z.ltb_lt in Hlt.
    destruct (iteration _ _ _ _ _ st) as [[st'|ps']| |] eqn:Hit; try done;
      simpl in H.
    + apply iteration_counts in Hit as [Hi' Hlen].
      apply IH in H; [|lia]. lia.
    + injection H as <-. apply iteration_break in Hit as ->. lia.
Qed.

(** X7. With a count [k] that is not negative the result has at most
    [k] paths, except that the first path is returned even when [k] is
    zero. *)
Theorem result_has_at_most_k_paths
    (DijkstraFromTo : Z → Z → yenKSPAdjuster → result (list Z * float64))
    (SortFunc : list yenShortest.t → list yenShortest.t)
    (UniformCost : graph.Graph → Weighting)
    (fuel : nat) (g : graph.Graph) (k : Z) (cost : float64) (s t : Z)
    (ps : list (list Z)) :
  0 ≤ k →
  YenKShortestPaths DijkstraFromTo SortFunc UniformCost fuel g k cost s t
  = Ok ps →
  Z.of_nat (length ps) ≤ Z.max 1 k.
Proof.
  intros Hk H. unfold YenKShortestPaths in H.
  destruct (DijkstraFromTo s t _) as [[p w]| |]; try done. simpl in H.
  destruct p as [|a [|b p]].
  - injection H as <-. simpl. lia.
  - injection H as <-. simpl. lia.
  - apply loop_count in H; simpl in *; [lia|done|done].
Qed.

Lemma loop_extends D Srt fuel yk k t cost st ps :
  loop D Srt fuel yk k t cost st = Ok ps → paths st `prefix_of` ps.
Proof.
  intros H.
  apply (loop_invariant _ _ _ _ _ (λ st', paths st `prefix_of` paths st'))
    in H as (st' & Hpre & ->); [done| |done].
  intros st1 st2 Hst (best & ->)%iteration_grows. by apply prefix_app_r.
Qed.

(** ** The result is the cheapest paths, and all of them within the budget *)

Section Completeness.

Variable DijkstraFromTo : Z → Z → yenKSPAdjuster → result (list Z * float64).
Variable SortFunc : list yenShortest.t → list yenShortest.t.
Variable UniformCost : graph.Graph → Weighting.
Hypothesis sound : oracleSound DijkstraFromTo.
Hypothesis optimal : oracleOptimal DijkstraFromTo.
Hypothesis permutes : sortPermutes SortFunc.
Hypothesis sorts : sortSorts SortFunc.

Lemma iteration_break_exhaustive yk s t cost st ps q :
  wellFormed (Graph yk) → exactWeights yk →
  structInv yk s t st → Forall (weighed yk) (pot st) →
  optInv yk s t cost st →
  iteration DijkstraFromTo SortFunc yk t cost st = Ok (inr ps) →
  looplessWalk yk s t q → q ∉ paths st →
  fgt (pathWeight (weight yk) q) cost = true.
Proof.
  intros wf exact (Hi & Hne & Hpaths & Hpot & Hnd) Hwpot
    (_ & _ & prev' & Hlast' & Hcov) H Hq Hnew.
  unfold iteration in H.
  destruct (indexZ (paths st) (i st - 1)) as [prev| |] eqn:Hprev; try done.
  simpl in H. apply indexZ_last in Hprev; [|done].
  rewrite Hprev in Hlast'. injection Hlast' as <-.
  pose proof (last_elem_of _ _ Hprev) as Hin.
  assert (acceptedOk yk s t prev) as (Hprevw & Hprevlen)
    by (by eapply Forall_forall in Hpaths).
  destruct (spurLoop _ _ _ _ _ _ _ _ _) as [pot'| |] eqn:Hloop; try done.
  simpl in H.
  pose proof Hloop as Hstruct.
  apply (spurLoop_struct _ _ sound permutes _ s) in Hstruct
    as (Hpot' & _ & _); [|done|done|lia|done|done].
  apply (spurLoop_coverage _ sound optimal _ s) in Hloop;
    [|done|done|done|done|lia|done|done|done|done].
  simpl in Hloop.
  destruct (coverage_done _ _ _ _ _ _ _ q Hprevw Hin Hloop Hq Hnew)
    as [?|(c & Hc & Hcq & _)]; [done|].
  destruct (length pot' =? 0)%nat eqn:Hempty.
  { apply Nat.eqb_eq in Hempty. destruct pot'; [|done].
    by apply elem_of_nil in Hc. }
  destruct (index (SortFunc pot') 0) as [best| |] eqn:Hbest; try done.
  simpl in H. apply index_Ok in Hbest.
  destruct (SortFunc pot') as [|best' rest] eqn:Hsort; [done|].
  injection Hbest as ->.
  pose proof (permutes pot') as Hperm. rewrite Hsort in Hperm.
  pose proof (sorts pot') as Hsorted. rewrite Hsort in Hsorted.
  apply StronglySorted_inv in Hsorted as [_ Hsorted].
  rewrite Forall_forall in Hsorted.
  rewrite <- Hperm in Hpot', Hc.
  apply Forall_cons in Hpot' as [(_ & Hblen) _].
  destruct (_ || _) eqn:Hstop; [|done].
  apply orb_true_iff in Hstop as [Hshort|Hgt].
  { apply Nat.leb_le in Hshort. lia. }
  assert (isNaN (yenShortest.weight best) = false) as Hbn
    by (by destruct (yenShortest.weight best)).
  assert (fle (yenShortest.weight best) (yenShortest.weight c)) as Hbc.
  { apply elem_of_cons in Hc as [->|Hc]; [by apply fle_refl|].
    apply byWeight_fle; [by apply Hsorted|done]. }
  clear -Hgt Hbc Hcq.
  destruct (yenShortest.weight best), (yenShortest.weight c),
    (pathWeight (weight yk) q), cost; float_cases.
Qed.

Lemma loop_exhaustive fuel yk k s t cost st ps q :
  wellFormed (Graph yk) → exactWeights yk →
  structInv yk s t st → Forall (weighed yk) (pot st) →
  optInv yk s t cost st →
  loop DijkstraFromTo SortFunc fuel yk k t cost st = Ok ps →
  k < 0 ∨ Z.of_nat (length ps) < k →
  looplessWalk yk s t q → q ∉ ps →
  fgt (pathWeight (weight yk) q) cost = true.
Proof.
  intros wf exact. revert st.
  induction fuel as [|fuel IH]; intros st Hst Hwpot Hopt H Hk Hq Hnew;
    simpl in H; destruct ((k <? 0) || (i st <? k)) eqn:Hcond;
    try done.
  - injection H as <-. apply orb_false_iff in Hcond as [Hk1 Hk2].
    apply Z.ltb_ge in Hk1, Hk2. destruct Hst as (Hi & _). lia.
  - destruct (iteration _ _ _ _ _ st) as [[st'|ps']| |] eqn:Hit; try done;
      simpl in H.
    + eapply (IH st'); try done.
      * by apply (iteration_struct _ _ sound permutes _ s) in Hit as [? _].
      * by apply (iteration_weighed _ _ sound permutes yk s) in Hit as [? _].
      * by eapply iteration_opt.
    + injection H as <-. pose proof Hit as ->%iteration_break.
      by eapply iteration_break_exhaustive.
  - injection H as <-. apply orb_false_iff in Hcond as [Hk1 Hk2].
    apply Z.ltb_ge in Hk1, Hk2. destruct Hst as (Hi & _). lia.
Qed.

(** X9. The result is made of the cheapest loopless paths: on a well-formed
    graph on which the additions are exact ([exactWeights]), when the
    search is correct and the sort sorts, no loopless walk from the source
    to the target that is left out of the result is cheaper than a path of
    the result. *)
Theorem returned_paths_are_the_cheapest (fuel : nat) (g : graph.Graph)
    (k : Z) (cost : float64) (s t : Z) (ps : list (list Z))
    (p q : list Z) :
  wellFormed g →
  exactWeights (newAdjuster UniformCost g) →
  YenKShortestPaths DijkstraFromTo SortFunc UniformCost fuel g k cost s t
  = Ok ps →
  p ∈ ps →
  walk (newAdjuster UniformCost g) s t q → NoDup q → q ∉ ps →
  fle (pathWeight (weight (newAdjuster UniformCost g)) p)
      (pathWeight (weight (newAdjuster UniformCost g)) q).
Proof.
  intros Hwf Hex (p0 & w & HD & Hcase)%Yen_cases Hp Hq Hnd Hnew.
  set (yk := newAdjuster UniformCost g) in *.
  pose proof (exact_nonnegative yk Hex) as Hnn.
  destruct Hcase as [[-> ->]|[[Hlen ->]|[Hlen Hloop]]].
  - by apply elem_of_nil in Hp.
  - apply list_elem_of_singleton in Hp as ->.
    destruct p0 as [|a [|b p0]]; try done.
    assert (nonnegFloat (pathWeight (weight yk) q)) as Hqw.
    { apply pathWeight_nonneg; [done|]. by destruct Hq as (_ & _ & ?). }
    rewrite pathWeight_singleton.
    destruct (pathWeight (weight yk) q); try done.
    destruct Hqw as [? _]. by apply Z.leb_le.
  - apply (loop_opt _ _ UniformCost sound optimal permutes sorts
             _ _ _ _ s _ _ w) in Hloop
      as (st & _ & _ & (_ & Hmin & _) & ->); try done.
    by apply Hmin.
Qed.

(** X10. On a well-formed graph on which the additions are exact
    ([exactWeights]): when the count does not cut the result short ([k] is
    negative, or fewer than [k] paths are returned), the result holds every
    loopless walk from the source to the target whose weight is within the
    budget of the first path: only the cost limits the set of returned
    paths. *)
Theorem every_path_within_budget_is_returned (fuel : nat) (g : graph.Graph)
    (k : Z) (cost : float64) (s t : Z) (ps : list (list Z)) (q : list Z) :
  wellFormed g →
  exactWeights (newAdjuster UniformCost g) →
  s ∈ graph.Nodes g →
  YenKShortestPaths DijkstraFromTo SortFunc UniformCost fuel g k cost s t
  = Ok ps →
  k < 0 ∨ Z.of_nat (length ps) < k →
  walk (newAdjuster UniformCost g) s t q → NoDup q →
  (∀ first, head ps = Some first →
     fle (pathWeight (weight (newAdjuster UniformCost g)) q)
         (fadd (pathWeight (weight (newAdjuster UniformCost g)) first)
               cost)) →
  q ∈ ps.
Proof.
  intros Hwf Hex Hs (p0 & w & HD & Hcase)%Yen_cases Hk Hq Hnd Hbudget.
  set (yk := newAdjuster UniformCost g) in *.
  pose proof (exact_nonnegative yk Hex) as Hnn.
  destruct Hcase as [[-> ->]|[[Hlen ->]|[Hlen Hloop]]].
  - exfalso.
    pose proof (optimal s t yk [] w Hwf Hnn Hs HD q Hq Hnd) as Hle.
    destruct (sound _ _ _ _ _ HD) as [[_ ->]|((? & _) & _)]; [|done].
    rewrite (pathWeight_exact yk Hwf Hex) in Hle;
      [done|by destruct Hq as (_ & _ & ?)|done].
  - destruct p0 as [|a [|b p0]]; try done.
    destruct (sound _ _ _ _ _ HD) as [[? _]|((Ha & Hb & _) & _)]; [done|].
    injection Ha as ->. injection Hb as ->.
    destruct Hq as (Hqh & Hql & _).
    destruct q as [|x [|y q]]; try done.
    + injection Hqh as ->. by left.
    + exfalso. injection Hqh as ->. rewrite last_cons_cons in Hql.
      apply NoDup_cons in Hnd as [Hnd _]. apply Hnd.
      by apply last_elem_of.
  - destruct (first_path _ UniformCost sound g s t p0 w HD) as [_ Hw].
    { intros ->. simpl in Hlen. lia. }
    fold yk in Hw.
    destruct (decide (q ∈ ps)) as [|Hnew]; [done|exfalso].
    assert (head ps = Some p0) as Hhead.
    { apply loop_extends in Hloop as [rest ->]. done. }
    specialize (Hbudget _ Hhead).
    assert (fgt (pathWeight (weight yk) q) (fadd cost w) = true) as Hgt.
    { eapply (loop_exhaustive fuel yk k s t); try done.
      - by eapply init_struct.
      - by apply Forall_nil.
      - by eapply (init_opt _ UniformCost sound optimal). }
    rewrite <- Hw, (fadd_comm w) in Hbudget. apply fle_fgt in Hbudget.
    congruence.
Qed.

End Completeness.

(** ** No failure of its own, and the empty result *)

Section OwnFailures.

Variable DijkstraFromTo : Z → Z → yenKSPAdjuster → result (list Z * float64).
Variable SortFunc : list yenShortest.t → list yenShortest.t.
Variable UniformCost : graph.Graph → Weighting.
Hypothesis sound : oracleSound DijkstraFromTo.
Hypothesis permutes : sortPermutes SortFunc.

Lemma spurBody_panic yk s t cost paths prev pot n :
  Forall (acceptedOk yk s t) paths → prev ∈ paths →
  (S n < length prev)%nat →
  spurBody DijkstraFromTo yk t cost paths prev pot n = Panic →
  ∃ spur ykm,
    prev !! n = Some spur ∧ spurView yk ykm paths prev n
    ∧ isDirected ykm = isDirected yk
    ∧ DijkstraFromTo spur t ykm = Panic.
Proof.
  intros Hpaths Hprev Hn. unfold spurBody.
  destruct (lookup_lt_is_Some_2 prev n) as [spur Hspur]; [lia|].
  unfold index at 1. rewrite Hspur. simpl.
  assert (acceptedOk yk s t prev) as ((Hwalk & Hnd) & _)
    by (by eapply Forall_forall in Hpaths).
  assert (spur ≠ t) as Hne by eauto using spur_not_target.
  destruct (removeRootEdges_total yk (reset yk) s t paths prev n spur)
    as [yk1 Hedges]; try done.
  rewrite Hedges. simpl.
  apply removeRootEdges_spec in Hedges as (HG & HD & HW & HN & HE).
  set (ykm := removeRootNodes yk1 (take (S n) prev)) in *.
  destruct (foldl_removeNode_spec yk1
    (take (length (take (S n) prev) - 1) (take (S n) prev)))
    as (HG' & HD' & HW' & HE' & HN').
  fold (removeRootNodes yk1 (take (S n) prev)) in HG', HD', HW', HE', HN'.
  fold ykm in HG', HD', HW', HE', HN'.
  assert (length (take (S n) prev) = S n) as Hlen
    by (rewrite length_take; lia).
  rewrite Hlen in *.
  replace (S n - 1)%nat with n in * by lia.
  rewrite take_take in *. replace (n `min` S n)%nat with n in * by lia.
  destruct (DijkstraFromTo spur t ykm) as [[spath w]| |] eqn:HD0; simpl.
  - destruct (_ || _); [done|]. by destruct (_ <? _)%nat.
  - intros _. exists spur, ykm. split_and!; try done.
    + split_and!.
      * by rewrite HG', HG.
      * by rewrite HW', HW.
      * intros x. rewrite HN', HN. simpl. set_solver.
      * intros a b. rewrite HE', HE. simpl. set_solver.
    + by rewrite HD', HD.
  - done.
Qed.

Lemma spurLoop_panic yk s t cost paths prev count n pot :
  Forall (acceptedOk yk s t) paths → prev ∈ paths →
  (n + count < length prev)%nat →
  Forall (candidateOk yk s t) pot →
  NoDup (paths ++ (yenShortest.path <$> pot)) →
  spurLoop DijkstraFromTo yk t cost paths prev count n pot = Panic →
  ∃ m spur ykm,
    (S m < length prev)%nat ∧ prev !! m = Some spur
    ∧ spurView yk ykm paths prev m
    ∧ isDirected ykm = isDirected yk
    ∧ DijkstraFromTo spur t ykm = Panic.
Proof.
  intros Hpaths Hprev. revert n pot.
  induction count as [|count IH]; intros n pot Hn Hpot Hnd H; simpl in H;
    [done|].
  destruct (spurBody _ _ _ _ _ _ _ _) as [pot1| |] eqn:Hbody; try done.
  - simpl in H.
    apply (spurBody_struct _ sound _ s) in Hbody as (? & ? & _);
      [|done|done|lia|done|done].
    apply (IH (S n) pot1); try done. lia.
  - apply (spurBody_panic _ s) in Hbody as (spur & ykm & ?);
      [|done|done|lia].
    exists n, spur, ykm. split; [lia|done].
Qed.

Lemma iteration_panic yk s t cost st :
  structInv yk s t st →
  iteration DijkstraFromTo SortFunc yk t cost st = Panic →
  ∃ prev m spur ykm,
    last (paths st) = Some prev
    ∧ (S m < length prev)%nat ∧ prev !! m = Some spur
    ∧ spurView yk ykm (paths st) prev m
    ∧ isDirected ykm = isDirected yk
    ∧ DijkstraFromTo spur t ykm = Panic.
Proof.
  intros (Hi & Hne & Hpaths & Hpot & Hnd). unfold iteration.
  destruct (last (paths st)) as [prev|] eqn:Hlast;
    [|by apply last_None in Hlast].
  assert (indexZ (paths st) (i st - 1) = Ok prev) as ->.
  { unfold indexZ. rewrite Hi. rewrite last_lookup in Hlast.
    destruct (paths st); [done|]. simpl length in *.
    rewrite (proj2 (Z.ltb_ge _ _)) by lia. apply index_Ok.
    rewrite <- Hlast. f_equal. lia. }
  simpl. pose proof (last_elem_of _ _ Hlast) as Hprev.
  assert (2 ≤ length prev)%nat as Hlen.
  { rewrite Forall_forall in Hpaths. by destruct (Hpaths _ Hprev). }
  destruct (spurLoop _ _ _ _ _ _ _ _ _) as [pot'| |] eqn:Hloop; simpl;
    [| |done].
  - destruct (length pot' =? 0)%nat eqn:Hempty; [done|].
    apply Nat.eqb_neq in Hempty.
    pose proof (Permutation_length (permutes pot')) as Hperm.
    destruct (SortFunc pot') as [|best rest]; [simpl in Hperm; lia|].
    simpl. by destruct (_ || _).
  - intros _.
    apply (spurLoop_panic _ s) in Hloop as (m & spur & ykm & ?);
      [|done|done|lia|done|done].
    by exists prev, m, spur, ykm.
Qed.

Lemma loop_panic fuel yk k s t cost st0 st :
  structInv yk s t st →
  reaches DijkstraFromTo SortFunc yk k t cost st0 st →
  loop DijkstraFromTo SortFunc fuel yk k t cost st = Panic →
  ∃ st' prev m spur ykm,
    reaches DijkstraFromTo SortFunc yk k t cost st0 st'
    ∧ last (paths st') = Some prev
    ∧ (S m < length prev)%nat ∧ prev !! m = Some spur
    ∧ spurView yk ykm (paths st') prev m
    ∧ isDirected ykm = isDirected yk
    ∧ DijkstraFromTo spur t ykm = Panic.
Proof.
  revert st. induction fuel as [|fuel IH]; intros st Hst Hr H; simpl in H.
  - by destruct (_ || _).
  - destruct (_ || _) eqn:Hcond; [|done].
    destruct (iteration _ _ _ _ _ st) as [[st'|ps']| |] eqn:Hit; try done;
      simpl in H.
    + pose proof Hit as Hit'.
      apply (iteration_struct _ _ sound permutes _ s) in Hit' as [? _];
        [|done].
      apply (IH st'); [done| |done]. by eapply reaches_next.
    + apply (iteration_panic _ s) in Hit
        as (prev & m & spur & ykm & ?); [|done].
      by exists st, prev, m, spur, ykm.
Qed.

(** X12. The function has no failure of its own: when the search keeps its
    contract and the sort only rearranges the pool, a call that panics does
    so because a query it made panicked: the first one, on the unmasked
    view, or the query from a spur node of the last accepted path in a
    state the outer loop reached, on the view that masks the root nodes
    before the spur and the root edges and nothing else.  The indexings
    [paths[i-1]], [path[n+1]] and [pot[0]] never go out of range. *)
Theorem panics_only_when_search_panics (fuel : nat) (g : graph.Graph)
    (k : Z) (cost : float64) (s t : Z) :
  YenKShortestPaths DijkstraFromTo SortFunc UniformCost fuel g k cost s t
  = Panic →
  DijkstraFromTo s t (newAdjuster UniformCost g) = Panic
  ∨ ∃ shortest w st prev n spur ykm,
      DijkstraFromTo s t (newAdjuster UniformCost g) = Ok (shortest, w)
      ∧ reaches DijkstraFromTo SortFunc (newAdjuster UniformCost g) k t
          (fadd cost w) {| paths := [shortest]; pot := []; i := 1 |} st
      ∧ last (paths st) = Some prev
      ∧ (S n < length prev)%nat ∧ prev !! n = Some spur
      ∧ spurView (newAdjuster UniformCost g) ykm (paths st) prev n
      ∧ isDirected ykm = isDirected (newAdjuster UniformCost g)
      ∧ DijkstraFromTo spur t ykm = Panic.
Proof.
  unfold YenKShortestPaths. intros H.
  destruct (DijkstraFromTo s t _) as [[p w]| |] eqn:HD; simpl in H;
    [|by left|done].
  right. destruct p as [|a [|b p]]; try done.
  apply (loop_panic _ _ _ s _ _ {| paths := [a :: b :: p]; pot := []; i := 1 |})
    in H as (st & prev & n & spur & ykm & ?).
  - by exists (a :: b :: p), w, st, prev, n, spur, ykm.
  - eapply init_struct; [done|done|simpl; lia].
  - apply reaches_here.
Qed.

End OwnFailures.

Section EmptyResult.

Variable DijkstraFromTo : Z → Z → yenKSPAdjuster → result (list Z * float64).
Variable SortFunc : list yenShortest.t → list yenShortest.t.
Variable UniformCost : graph.Graph → Weighting.
Hypothesis sound : oracleSound DijkstraFromTo.
Hypothesis optimal : oracleOptimal DijkstraFromTo.

(** X13. On a well-formed graph with nonnegative weights and a correct
    search, the result is empty when no walk leads from the source to the
    target, and only when no walk of finite weight does: a target that is
    reachable at the float64 weight [+Inf] alone may be reported
    unreachable. *)
Theorem empty_result_iff_unreachable (fuel : nat) (g : graph.Graph) (k : Z)
    (cost : float64) (s t : Z) (ps : list (list Z)) :
  wellFormed g →
  nonnegative (newAdjuster UniformCost g) →
  s ∈ graph.Nodes g →
  YenKShortestPaths DijkstraFromTo SortFunc UniformCost fuel g k cost s t
  = Ok ps →
  (ps = [] →
   ¬ ∃ q, walk (newAdjuster UniformCost g) s t q
          ∧ IsInf (pathWeight (weight (newAdjuster UniformCost g)) q)
            = false)
  ∧ ((¬ ∃ q, walk (newAdjuster UniformCost g) s t q) → ps = []).
Proof.
  intros Hwf Hnn Hs (p & w & HD & Hempty & Hhead)%Yen_head.
  set (yk := newAdjuster UniformCost g) in *.
  destruct (sound _ _ _ _ _ HD) as [[-> ->]|(Hwalk & Hnd & Hw)].
  - split; [intros _|by intros _; apply Hempty].
    intros (q & Hq & Hfin).
    destruct (walk_shortcut yk s t q Hnn Hq) as (q' & Hq' & Hnd' & Hle).
    pose proof (optimal s t yk [] PInf Hwf Hnn Hs HD q' Hq' Hnd') as Hopt.
    specialize (Hle (Fin 0) nonnegFloat_zero).
    fold (pathWeight (weight yk) q') in Hle.
    fold (pathWeight (weight yk) q) in Hle.
    pose proof (fle_trans _ _ _ Hopt Hle) as Hbad.
    by destruct (pathWeight (weight yk) q).
  - assert (p ≠ []) as Hp by (by destruct Hwalk as (? & _); intros ->).
    specialize (Hhead Hp). split.
    + intros ->. done.
    + intros Hno. exfalso. apply Hno. by exists p.
Qed.

End EmptyResult.

(** ** What the pool holds *)

Section Pool.

Variable DijkstraFromTo : Z → Z → yenKSPAdjuster → result (list Z * float64).
Variable SortFunc : list yenShortest.t → list yenShortest.t.
Variable UniformCost : graph.Graph → Weighting.
Hypothesis sound : oracleSound DijkstraFromTo.
Hypothesis permutes : sortPermutes SortFunc.


End Pool.

(** ** More runs on the reference instances *)

Module Runs.

Import Reference ReferenceFacts Witnesses.

Lemma suppression_only_shrinks_witness :
  From (foldl applyOp (newAdjuster UniformCost example)
          [opRemoveNode 3; opRemoveEdge 0 1]) 0
  ⊆+ From (newAdjuster UniformCost example) 0.
Proof.
  apply suppression_only_shrinks.
  intros H. repeat (apply elem_of_cons in H as [H|H]; [discriminate|]).
  by apply elem_of_nil in H.
Defined.

Lemma result_has_at_most_k_paths_witness :
  Z.of_nat (length [[0; 1; 3; 4]; [0; 2; 3; 4]; [0; 1; 2; 3; 4]])
  ≤ Z.max 1 3.
Proof.
  apply (result_has_at_most_k_paths DijkstraFromTo SortFunc UniformCost
           5 example 3 PInf 0 4).
  - lia.
  - exact example_run.
Defined.

Lemma returned_paths_are_the_cheapest_witness :
  fle (pathWeight (weight (newAdjuster UniformCost example)) [0; 1; 3; 4])
      (pathWeight (weight (newAdjuster UniformCost example)) [0; 2; 3; 4]).
Proof.
  apply (returned_paths_are_the_cheapest DijkstraFromTo SortFunc UniformCost
           oracle_sound oracle_optimal sort_permutes sort_sorts
           2 example 1 PInf 0 4 [[0; 1; 3; 4]]).
  - exact example_wellFormed.
  - exact example_exact.
  - vm_compute. reflexivity.
  - by_computation.
  - split_and!; [reflexivity|reflexivity|].
    repeat split; by_computation.
  - by_computation.
  - by_computation.
Defined.

Lemma every_path_within_budget_is_returned_witness :
  [0; 1; 2; 3; 4] ∈ [[0; 1; 3; 4]; [0; 2; 3; 4]; [0; 1; 2; 3; 4]].
Proof.
  apply (every_path_within_budget_is_returned DijkstraFromTo SortFunc
           UniformCost oracle_sound oracle_optimal sort_permutes sort_sorts
           5 example (-1) (ofInt 1) 0 4).
  - exact example_wellFormed.
  - exact example_exact.
  - by_computation.
  - vm_compute. reflexivity.
  - left. lia.
  - split_and!; [reflexivity|reflexivity|].
    repeat split; by_computation.
  - by_computation.
  - intros first [= <-]. vm_compute. reflexivity.
Defined.

Lemma panics_only_when_search_panics_witness :
  DijkstraFromTo 0 1 (newAdjuster UniformCost negativeAhead) = Panic
  ∨ ∃ shortest w st prev n spur ykm,
      DijkstraFromTo 0 1 (newAdjuster UniformCost negativeAhead)
      = Ok (shortest, w)
      ∧ reaches DijkstraFromTo SortFunc
          (newAdjuster UniformCost negativeAhead) 3 1
          (fadd PInf w) {| paths := [shortest]; pot := []; i := 1 |} st
      ∧ last (paths st) = Some prev
      ∧ (S n < length prev)%nat ∧ prev !! n = Some spur
      ∧ spurView (newAdjuster UniformCost negativeAhead) ykm (paths st)
          prev n
      ∧ isDirected ykm = isDirected (newAdjuster UniformCost negativeAhead)
      ∧ DijkstraFromTo spur 1 ykm = Panic.
Proof.
  apply (panics_only_when_search_panics DijkstraFromTo SortFunc UniformCost
           oracle_sound sort_permutes 5 negativeAhead 3 PInf 0 1).
  vm_compute. reflexivity.
Defined.

Lemma empty_result_iff_unreachable_witness :
  (@nil (list Z) = [] →
   ¬ ∃ q, walk (newAdjuster UniformCost example) 4 0 q
          ∧ IsInf (pathWeight (weight (newAdjuster UniformCost example)) q)
            = false)
  ∧ ((¬ ∃ q, walk (newAdjuster UniformCost example) 4 0 q) →
     @nil (list Z) = []).
Proof.
  apply (empty_result_iff_unreachable DijkstraFromTo SortFunc UniformCost
           oracle_sound oracle_optimal 5 example 3 PInf 4 0).
  - exact example_wellFormed.
  - exact example_nonnegative.
  - by_computation.
  - vm_compute. reflexivity.
Defined.


End Runs.
